(** * Sortable: a drag-and-drop / keyboard list reordering widget

    Shallow embedding of [src/js/sortable.js] (class [Sortable]) and of the
    part of the DOM its handlers touch, followed by the properties of the
    specification that concern the drag state machine.

    Conventions of the embedding
    - A DOM element is a [node] (its identity, a JavaScript object
      reference); the page is a finite store from nodes to element records.
      A node that is not stored reads as an element with no tag, attribute,
      class, parent or child.  Only element nodes are stored: the handlers
      use the element views of the tree exclusively ([children],
      [parentElement], [previousElementSibling], [insertAdjacentElement]),
      and inserting next to an element in the node list places the new
      element next to it in the element list as well.  An element without
      a parent element is a detached element.
    - JavaScript [null] / [undefined] is [None].
    - A handler is a computation over the [World] (widget state, page, and
      the record of callback invocations) that either returns or throws;
      mutations made before a throw persist, as they do in JavaScript.
    - Selectors are interpreted for the three simple forms [.class],
      [[attr]] and [tag]; [preventDefault] has no effect on the widget or
      the page and is left out.
    - The embedding covers events whose target is an element and
      configurations whose selectors are well formed.  In the browser a
      text node as target ([e.target.matches] is not a function) and a
      malformed selector (a [SyntaxError] of [matches], [closest] or
      [querySelector]) make the first line of a handler throw; these
      inputs have no counterpart here, and the properties of the guards of
      [start] and [keydown] are stated for element targets and well-formed
      attribute names.
    - The field [textContent] of an element record is the text the element
      holds itself; for an element without element children, such as the
      assistive element after an assignment, it is the DOM's [textContent].
    - [activeElement] is [None] when the body has the focus.  An element
      that is taken out of its parent, or lies inside one that is, loses
      the focus.
    - [end] is a keyword, so the drag-end handler is [end_]. *)

From Stdlib Require Import DecimalString.
From stdpp Require Import base option list gmap strings.

Local Open Scope string_scope.

(** ** The page *)

Definition node := nat.

Record Element := mkElement {
  tagName : string;
  attributes : list string;
  classList : list string;
  textContent : string;
  focusable : bool;
  parentElement : option node;
  children : list node
}.

Definition blank : Element := mkElement "" [] [] "" false None [].

Record Dom := mkDom {
  elements : gmap node Element;
  activeElement : option node
}.

Definition elem (d : Dom) (n : node) : Element := default blank (elements d !! n).
Definition parent_of (d : Dom) (n : node) : option node := parentElement (elem d n).
Definition children_of (d : Dom) (n : node) : list node := children (elem d n).

Definition update (d : Dom) (n : node) (f : Element -> Element) : Dom :=
  mkDom (<[n := f (elem d n)]> (elements d)) (activeElement d).

Definition set_parent (p : option node) (e : Element) : Element :=
  mkElement (tagName e) (attributes e) (classList e) (textContent e) (focusable e) p (children e).
Definition set_children (cs : list node) (e : Element) : Element :=
  mkElement (tagName e) (attributes e) (classList e) (textContent e) (focusable e) (parentElement e) cs.
Definition set_classList (cl : list string) (e : Element) : Element :=
  mkElement (tagName e) (attributes e) cl (textContent e) (focusable e) (parentElement e) (children e).
Definition set_text (s : string) (e : Element) : Element :=
  mkElement (tagName e) (attributes e) (classList e) s (focusable e) (parentElement e) (children e).

(** [el.matches(sel)] for the selector forms [.c], [[a]] and [tag]. *)
Definition matches (e : Element) (sel : string) : bool :=
  existsb (fun c => String.eqb sel ("." +:+ c)) (classList e)
  || existsb (fun a => String.eqb sel ("[" +:+ a +:+ "]")) (attributes e)
  || String.eqb sel (tagName e).

(** Walks towards the root.  The fuel is the number of stored elements plus
    one, which bounds the length of any parent chain of a tree. *)
Fixpoint contains_from (fuel : nat) (d : Dom) (a b : node) : bool :=
  match fuel with
  | 0 => false
  | S f =>
      if decide (b = a) then true
      else match parent_of d b with
           | None => false
           | Some p => contains_from f d a p
           end
  end.

(** [a.contains(b)]: [b] is [a] or a descendant of [a]. *)
Definition contains (d : Dom) (a b : node) : bool :=
  contains_from (S (size (elements d))) d a b.

Fixpoint closest_from (fuel : nat) (d : Dom) (sel : string) (n : node) : option node :=
  match fuel with
  | 0 => None
  | S f =>
      if matches (elem d n) sel then Some n
      else match parent_of d n with
           | None => None
           | Some p => closest_from f d sel p
           end
  end.

(** [n.closest(sel)]: the nearest inclusive ancestor matching [sel]. *)
Definition closest (d : Dom) (n : node) (sel : string) : option node :=
  closest_from (S (size (elements d))) d sel n.

Fixpoint descendants (fuel : nat) (d : Dom) (n : node) : list node :=
  match fuel with
  | 0 => []
  | S f => flat_map (fun c => c :: descendants f d c) (children_of d n)
  end.

(** [n.querySelector(sel)]: the first descendant in document order. *)
Definition querySelector (d : Dom) (n : node) (sel : string) : option node :=
  find (fun c => matches (elem d c) sel) (descendants (size (elements d)) d n).

(** [n.previousElementSibling] and [n.nextElementSibling]. *)
Fixpoint before_in (n : node) (cs : list node) : option node :=
  match cs with
  | a :: (b :: _) as r => if decide (b = n) then Some a else before_in n r
  | _ => None
  end.

Fixpoint after_in (n : node) (cs : list node) : option node :=
  match cs with
  | a :: r => if decide (a = n) then head r else after_in n r
  | [] => None
  end.

Definition previousElementSibling (d : Dom) (n : node) : option node :=
  match parent_of d n with
  | None => None
  | Some p => match children_of d p with
              | [] => None
              | a :: r => if decide (a = n) then None else before_in n (a :: r)
              end
  end.

Definition nextElementSibling (d : Dom) (n : node) : option node :=
  match parent_of d n with
  | None => None
  | Some p => after_in n (children_of d p)
  end.

(** Child list edits. *)
Definition without (e : node) (cs : list node) : list node :=
  filter (fun c => c ≠ e) cs.

Fixpoint insert_before (t e : node) (cs : list node) : list node :=
  match cs with
  | [] => [e]
  | c :: r => if decide (c = t) then e :: c :: r else c :: insert_before t e r
  end.

Fixpoint insert_after (t e : node) (cs : list node) : list node :=
  match cs with
  | [] => [e]
  | c :: r => if decide (c = t) then c :: e :: r else c :: insert_after t e r
  end.

(** The focus after the nodes [removed] were taken out of their parents: an
    element that is removed, or that lies inside a removed one, loses the
    focus, and [document.activeElement] falls back to the body ([None]);
    putting the element back does not return the focus to it. *)
Definition blurred (d : Dom) (removed : list node) : option node :=
  match activeElement d with
  | Some f => if existsb (fun c => contains d c f) removed then None else Some f
  | None => None
  end.

Definition with_active (a : option node) (d : Dom) : Dom := mkDom (elements d) a.

(** Takes [c] out of its parent's child list, if it has a parent. *)
Definition detach (d : Dom) (c : node) : Dom :=
  match parent_of d c with
  | None => d
  | Some p => with_active (blurred d [c])
                (update (update d p (fun e => set_children (without c (children e)) e))
                        c (set_parent None))
  end.

Inductive Position := beforebegin | afterend.

(** Puts [e] next to [t] among the children of [p], taking it out of its
    previous place first. *)
Definition place (d : Dom) (e t p : node) (pos : Position) : Dom :=
  let d1 := detach d e in
  let cs := children_of d1 p in
  let cs' := match pos with
             | beforebegin => insert_before t e cs
             | afterend => insert_after t e cs
             end in
  update (update d1 p (set_children cs')) e (set_parent (Some p)).

(** [classList.add] and [classList.remove]. *)
Definition class_add (c : string) (cl : list string) : list string :=
  if existsb (String.eqb c) cl then cl else cl ++ [c].
Definition class_remove (c : string) (cl : list string) : list string :=
  filter (fun x => x ≠ c) cl.

(** Assigning [textContent] replaces every child by one text node. *)
Definition assign_text (d : Dom) (n : node) (s : string) : Dom :=
  let d1 := foldr (fun c acc => update acc c (set_parent None)) d (children_of d n) in
  with_active (blurred d (children_of d n))
    (update d1 n (fun e => set_text s (set_children [] e))).

Definition focus (d : Dom) (n : node) : Dom :=
  if focusable (elem d n) then mkDom (elements d) (Some n) else d.

(** ** Widget configuration and state *)

Inductive Exn := TypeError | NotFoundError | HierarchyRequestError.

Inductive Result (A : Type) :=
  | Returned (a : A)
  | Thrown (x : Exn).
Arguments Returned {A} a.
Arguments Thrown {A} x.

Module State.
Record t := mk {
  assistiveText : option node;
  draggingElement : option node;
  draggingIndex : option nat;
  sortableContainer : option node;
  sortableList : option node
}.
End State.

(** What the callback may do: it receives the state object itself and runs
    with the page in reach, so it may change both, and it may throw. *)
Definition OnSort := State.t -> Dom -> Result unit * (State.t * Dom).

Module Config.
Record t := mk {
  assistiveText : string;
  attr : string;
  draggingClass : string;
  draggingElementClass : string;
  onSort : OnSort;
  sortableContainer : string
}.
End Config.

(** The defaults of the constructor; [(state) => {}] does nothing. *)
Definition default_onSort : OnSort := fun st d => (Returned tt, (st, d)).

Definition default_config : Config.t :=
  Config.mk ".assistive" "data-sortable" "dragging" "active-drag"
            default_onSort ".sortable".

(** [fired] records, oldest first, the state and page each invocation of
    the callback was given; nothing in the program reads it. *)
Record World := mkWorld {
  state : State.t;
  document : Dom;
  fired : list (State.t * Dom)
}.

(** The state [init] installs. *)
Definition init_state : State.t := State.mk None None None None None.
Definition init (d : Dom) : World := mkWorld init_state d [].

(** ** Computations that mutate the world and may throw *)

Definition M (A : Type) := World -> Result A * World.

Definition ret {A} (a : A) : M A := fun w => (Returned a, w).
Definition throw {A} (x : Exn) : M A := fun w => (Thrown x, w).
Definition bind {A B} (m : M A) (k : A -> M B) : M B :=
  fun w => match m w with
           | (Returned a, w1) => k a w1
           | (Thrown x, w1) => (Thrown x, w1)
           end.

#[global] Instance M_ret : MRet M := @ret.
#[global] Instance M_bind : MBind M := fun A B k m => bind m k.
#[global] Instance M_throw : MThrow Exn M := @throw.

Definition get_state : M State.t := fun w => (Returned (state w), w).
Definition get_document : M Dom := fun w => (Returned (document w), w).
Definition modify_state (f : State.t -> State.t) : M unit :=
  fun w => (Returned tt, mkWorld (f (state w)) (document w) (fired w)).
Definition modify_document (f : Dom -> Dom) : M unit :=
  fun w => (Returned tt, mkWorld (state w) (f (document w)) (fired w)).

(** Dereferencing [null] throws a [TypeError]. *)
Definition deref {A} (o : option A) : M A :=
  match o with
  | Some a => ret a
  | None => throw TypeError
  end.

Definition set_assistiveText (v : option node) (s : State.t) : State.t :=
  State.mk v (State.draggingElement s) (State.draggingIndex s)
           (State.sortableContainer s) (State.sortableList s).
Definition set_draggingElement (v : option node) (s : State.t) : State.t :=
  State.mk (State.assistiveText s) v (State.draggingIndex s)
           (State.sortableContainer s) (State.sortableList s).
Definition set_draggingIndex (v : option nat) (s : State.t) : State.t :=
  State.mk (State.assistiveText s) (State.draggingElement s) v
           (State.sortableContainer s) (State.sortableList s).
Definition set_sortableContainer (v : option node) (s : State.t) : State.t :=
  State.mk (State.assistiveText s) (State.draggingElement s) (State.draggingIndex s)
           v (State.sortableList s).
Definition set_sortableList (v : option node) (s : State.t) : State.t :=
  State.mk (State.assistiveText s) (State.draggingElement s) (State.draggingIndex s)
           (State.sortableContainer s) v.

(** ** DOM methods used by the handlers *)

(** [parent.removeChild(child)]. *)
Definition removeChild (parent : node) (child : option node) : M unit :=
  c ← deref child;
  d ← get_document;
  if decide (parent_of d c = Some parent)
  then modify_document (fun d => detach d c)
  else throw NotFoundError.

(** [target.insertAdjacentElement(where, el)] for the two positions the
    widget uses.  Without a parent the target takes no neighbour and the
    call returns [null]; an element cannot be placed inside itself. *)
Definition insertAdjacentElement (tgt : node) (pos : Position)
    (el : option node) : M (option node) :=
  e ← deref el;
  d ← get_document;
  match parent_of d tgt with
  | None => ret None
  | Some p =>
      if contains d e p then throw HierarchyRequestError
      else if decide (tgt = e) then ret (Some e)
      else
        modify_document (fun d => place d e tgt p pos) ;;
        ret (Some e)
  end.

Definition classList_add (n : node) (c : string) : M unit :=
  modify_document (fun d => update d n (fun e => set_classList (class_add c (classList e)) e)).
Definition classList_remove (n : node) (c : string) : M unit :=
  modify_document (fun d => update d n (fun e => set_classList (class_remove c (classList e)) e)).

Record Event := mkEvent {
  target : node;
  key : string
}.

(** [`[${this.config.attr}]`] *)
Definition attr_selector (cfg : Config.t) : string := "[" +:+ Config.attr cfg +:+ "]".

(** Attribute names for which [[name]] is a well-formed selector: a letter
    or an underscore, followed by letters, digits, hyphens and underscores.
    With any other name the selector may be malformed (the empty name gives
    [[]]), and [matches] then throws a [SyntaxError]. *)
Definition name_start (c : Ascii.ascii) : bool :=
  let n := Ascii.nat_of_ascii c in
  (Nat.leb 65 n && Nat.leb n 90) || (Nat.leb 97 n && Nat.leb n 122) || Nat.eqb n 95.

Definition name_char (c : Ascii.ascii) : bool :=
  let n := Ascii.nat_of_ascii c in
  name_start c || (Nat.leb 48 n && Nat.leb n 57) || Nat.eqb n 45.

Definition well_formed_name (s : string) : bool :=
  match s with
  | EmptyString => false
  | String c r => name_start c && forallb name_char (String.list_ascii_of_string r)
  end.

(** The target of an event is an element of the page. *)
Definition element_target (d : Dom) (e : Event) : Prop :=
  is_Some (elements d !! target e).

(** ** The methods of [Sortable] *)

(** The position of [el] in [cs], scanning from index [i]. *)
Fixpoint scan (el : option node) (cs : list node) (i : nat) : option nat :=
  match cs with
  | [] => None
  | c :: r => if decide (Some c = el) then Some i else scan el r (S i)
  end.

(** [getSortableIndex(el)]; [None] is the [undefined] of the bare [return]. *)
Definition getSortableIndex (st : State.t) (d : Dom) (el : option node) : option nat :=
  match State.sortableList st with
  | None => None
  | Some l => Some (default 0 (scan el (children_of d l) 0))
  end.

(** [${n + 1}] inside a template literal. *)
Definition show_position (i : option nat) : string :=
  match i with
  | Some n => NilEmpty.string_of_uint (Nat.to_uint (n + 1))
  | None => "NaN"
  end.

Definition show_nat (n : nat) : string := NilEmpty.string_of_uint (Nat.to_uint n).

Definition describe : M unit :=
  st ← get_state;
  match State.draggingElement st with
  | None =>
      a ← deref (State.assistiveText st);
      modify_document (fun d => assign_text d a
        ("Item dropped at position " +:+ show_position (State.draggingIndex st) +:+ "."))
  | Some _ =>
      l ← deref (State.sortableList st);
      a ← deref (State.assistiveText st);
      modify_document (fun d => assign_text d a
        ("Item grabbed. Current position is " +:+ show_position (State.draggingIndex st)
         +:+ " of " +:+ show_nat (length (children_of d l))
         +:+ ". Use up or down arrows to change position, spacebar to drop."))
  end.

Definition start (cfg : Config.t) (e : Event) : M unit :=
  d ← get_document;
  if negb (matches (elem d (target e)) (attr_selector cfg)) then ret tt else
  modify_state (set_draggingElement (Some (target e))) ;;
  modify_state (set_sortableList (parent_of d (target e))) ;;
  modify_state (fun st => set_draggingIndex (getSortableIndex st d (Some (target e))) st) ;;
  modify_state (set_sortableContainer (closest d (target e) (Config.sortableContainer cfg))) ;;
  st ← get_state;
  c ← deref (State.sortableContainer st);
  modify_state (set_assistiveText (querySelector d c (Config.assistiveText cfg))) ;;
  st ← get_state;
  g ← deref (State.draggingElement st);
  classList_add g (Config.draggingElementClass cfg) ;;
  c ← deref (State.sortableContainer st);
  classList_add c (Config.draggingClass cfg) ;;
  describe.

(** [x < y] on values that may be [undefined]. *)
Definition js_lt (x y : option nat) : bool :=
  match x, y with
  | Some a, Some b => Nat.ltb a b
  | _, _ => false
  end.

(** Lines 134-146 of [sort]: everything before the callback. *)
Definition sort_steps (tgt : node) : M unit :=
  st ← get_state;
  d ← get_document;
  let draggingUpwards := js_lt (getSortableIndex st d (Some tgt)) (State.draggingIndex st) in
  l ← deref (State.sortableList st);
  removeChild l (State.draggingElement st) ;;
  r ← insertAdjacentElement tgt (if draggingUpwards then beforebegin else afterend)
        (State.draggingElement st);
  modify_state (set_draggingElement r) ;;
  st ← get_state;
  d ← get_document;
  modify_state (set_draggingIndex (getSortableIndex st d (State.draggingElement st))) ;;
  describe.

(** [this.config.onSort(this.state)] *)
Definition fire_onSort (cfg : Config.t) : M unit :=
  fun w =>
    match Config.onSort cfg (state w) (document w) with
    | (r, (st, d)) => (r, mkWorld st d (fired w ++ [(state w, document w)]))
    end.

Definition sort (cfg : Config.t) (tgt : node) : M unit :=
  sort_steps tgt ;;
  fire_onSort cfg.

Definition over (cfg : Config.t) (e : Event) : M unit :=
  st ← get_state;
  d ← get_document;
  match State.draggingElement st with
  | None => ret tt
  | Some g =>
      if decide (g = target e) then ret tt
      else if negb (matches (elem d (target e)) (attr_selector cfg)) then ret tt
      else
        c ← deref (State.sortableContainer st);
        if negb (contains d c (target e)) then ret tt
        else sort cfg (target e)
  end.

Definition end_ (cfg : Config.t) (e : Event) : M unit :=
  st ← get_state;
  g ← deref (State.draggingElement st);
  classList_remove g (Config.draggingElementClass cfg) ;;
  c ← deref (State.sortableContainer st);
  classList_remove c (Config.draggingClass cfg) ;;
  modify_state (set_draggingElement None) ;;
  describe ;;
  modify_state (set_draggingIndex None) ;;
  modify_state (set_sortableContainer None) ;;
  modify_state (set_sortableList None).

Definition focus_element (n : node) : M unit :=
  modify_document (fun d => focus d n).

Definition is_arrow (k : string) : bool :=
  String.eqb k "ArrowUp" || String.eqb k "ArrowDown".

Definition sibling_for (d : Dom) (e : Event) : option node :=
  if String.eqb (key e) "ArrowUp"
  then previousElementSibling d (target e)
  else nextElementSibling d (target e).

Definition keydown (cfg : Config.t) (e : Event) : M unit :=
  d ← get_document;
  st ← get_state;
  if negb (matches (elem d (target e)) (attr_selector cfg)) then ret tt
  else if String.eqb (key e) " " then
    match State.draggingElement st with
    | None => start cfg e
    | Some _ => end_ cfg e
    end
  else if bool_decide (is_Some (State.draggingElement st)) && is_arrow (key e) then
    match sibling_for d e with
    | Some t => sort cfg t
    | None => ret tt
    end ;;
    st ← get_state;
    g ← deref (State.draggingElement st);
    focus_element g
  else if is_arrow (key e) then
    match sibling_for d e with
    | Some f => focus_element f
    | None => ret tt
    end
  else ret tt.

(** ** Earlier versions of the class

    [src/unnamed/part_001] and [src/unnamed/part_002] hold two earlier
    versions of [Sortable]: without assistive text, classes, keyboard and
    callback call; [part_001] also without the dragging index. *)

Module Part001.

Definition start (cfg : Config.t) (e : Event) : M unit :=
  d ← get_document;
  if negb (matches (elem d (target e)) (attr_selector cfg)) then ret tt else
  modify_state (set_draggingElement (Some (target e))) ;;
  modify_state (set_sortableList (parent_of d (target e))) ;;
  modify_state (set_sortableContainer (closest d (target e) (Config.sortableContainer cfg))).

Definition sort (tgt : node) : M unit :=
  st ← get_state;
  l ← deref (State.sortableList st);
  removeChild l (State.draggingElement st) ;;
  r ← insertAdjacentElement tgt afterend (State.draggingElement st);
  modify_state (set_draggingElement r).

Definition over (cfg : Config.t) (e : Event) : M unit :=
  st ← get_state;
  d ← get_document;
  match State.draggingElement st with
  | None => ret tt
  | Some g =>
      if decide (g = target e) then ret tt
      else if negb (matches (elem d (target e)) (attr_selector cfg)) then ret tt
      else
        c ← deref (State.sortableContainer st);
        if negb (contains d c (target e)) then ret tt
        else sort (target e)
  end.

Definition end_ (e : Event) : M unit :=
  modify_state (set_draggingElement None) ;;
  modify_state (set_sortableContainer None) ;;
  modify_state (set_sortableList None).

End Part001.

Module Part002.

Definition start (cfg : Config.t) (e : Event) : M unit :=
  d ← get_document;
  if negb (matches (elem d (target e)) (attr_selector cfg)) then ret tt else
  modify_state (set_draggingElement (Some (target e))) ;;
  modify_state (set_sortableList (parent_of d (target e))) ;;
  modify_state (fun st => set_draggingIndex (getSortableIndex st d (Some (target e))) st) ;;
  modify_state (set_sortableContainer (closest d (target e) (Config.sortableContainer cfg))).

Definition sort (tgt : node) : M unit :=
  st ← get_state;
  d ← get_document;
  let draggingUpwards := js_lt (getSortableIndex st d (Some tgt)) (State.draggingIndex st) in
  l ← deref (State.sortableList st);
  removeChild l (State.draggingElement st) ;;
  r ← insertAdjacentElement tgt (if draggingUpwards then beforebegin else afterend)
        (State.draggingElement st);
  modify_state (set_draggingElement r) ;;
  st ← get_state;
  d ← get_document;
  modify_state (set_draggingIndex (getSortableIndex st d (State.draggingElement st))).

Definition over (cfg : Config.t) (e : Event) : M unit :=
  st ← get_state;
  d ← get_document;
  match State.draggingElement st with
  | None => ret tt
  | Some g =>
      if decide (g = target e) then ret tt
      else if negb (matches (elem d (target e)) (attr_selector cfg)) then ret tt
      else
        c ← deref (State.sortableContainer st);
        if negb (contains d c (target e)) then ret tt
        else sort (target e)
  end.

Definition end_ (e : Event) : M unit :=
  modify_state (set_draggingElement None) ;;
  modify_state (set_draggingIndex None) ;;
  modify_state (set_sortableContainer None) ;;
  modify_state (set_sortableList None).

End Part002.

Local Close Scope string_scope.

(** * Notions used in the statements *)

(** ** Outcomes *)

(** The world a handler leaves behind, and its outcome. *)
Definition after {A} (m : M A) (w : World) : World := snd (m w).
Definition outcome {A} (m : M A) (w : World) : Result A := fst (m w).

(** A callback that returns without touching the state or the page. *)
Definition inert (f : OnSort) : Prop :=
  forall st d, f st d = (Returned tt, (st, d)).

(** ** Well-formed pages *)

(** [inside d a b]: [b] is [a] or lies below [a], following parent links. *)
Inductive inside (d : Dom) (a : node) : node -> Prop :=
  | inside_self : inside d a a
  | inside_child b q : parent_of d b = Some q -> inside d a q -> inside d a b.

(** [chain d a ps b]: [ps] lists the nodes from [b] up to, not including,
    [a], each the child of the next. *)
Inductive chain (d : Dom) (a : node) : list node -> node -> Prop :=
  | chain_here : chain d a [] a
  | chain_up b q ps : parent_of d b = Some q -> chain d a ps q -> chain d a (b :: ps) b.

(** The store describes a forest: parent links and child lists agree, no
    child is listed twice, and parent links never loop. *)
Record wf_dom (d : Dom) : Prop := mk_wf {
  wf_children : forall c p, parent_of d c = Some p <-> c ∈ children_of d p;
  wf_nodup : forall p, NoDup (children_of d p);
  wf_acyclic : forall c p, parent_of d c = Some p -> ~ inside d c p
}.

(** A checkable sufficient condition, for a given ranking of the nodes. *)
Definition wf_element (rank : node -> nat) (d : Dom) (n : node) (e : Element) : Prop :=
  NoDup (children e)
  /\ Forall (fun c => parent_of d c = Some n) (children e)
  /\ match parentElement e with
     | Some p => n ∈ children_of d p /\ rank p < rank n
     | None => True
     end.

#[global] Instance wf_element_dec rank d n e : Decision (wf_element rank d n e).
Proof. unfold wf_element. destruct (parentElement e); apply _. Defined.

Definition wf_check (rank : node -> nat) (d : Dom) : bool :=
  bool_decide (map_Forall (wf_element rank d) (elements d)).

(** Two pages with the same parent links and child lists. *)
Definition same_tree (d d' : Dom) : Prop :=
  forall n, parent_of d' n = parent_of d n /\ children_of d' n = children_of d n.

(** ** An active drag *)

(** An element is held: the state names it, its parent list and the
    assistive element, and the assistive element has no element children
    (which is how [describe] leaves it). *)
Record dragging (w : World) (g l a : node) : Prop := mk_dragging {
  drag_element : State.draggingElement (state w) = Some g;
  drag_list : State.sortableList (state w) = Some l;
  drag_assist : State.assistiveText (state w) = Some a;
  drag_parent : parent_of (document w) g = Some l;
  drag_leaf : children_of (document w) a = []
}.

(** The state and its page agree on where the held element is. *)
Definition in_sync (st : State.t) (d : Dom) : Prop :=
  forall g, State.draggingElement st = Some g ->
    exists p i, parent_of d g = Some p
      /\ State.draggingIndex st = Some i
      /\ children_of d p !! i = Some g.

Definition all_set (st : State.t) : Prop :=
  is_Some (State.draggingElement st) /\ is_Some (State.draggingIndex st)
  /\ is_Some (State.sortableList st) /\ is_Some (State.sortableContainer st).

Definition all_clear (st : State.t) : Prop :=
  State.draggingElement st = None /\ State.draggingIndex st = None
  /\ State.sortableList st = None /\ State.sortableContainer st = None.

(** A drag is under way on a well-formed page: everything is stored and
    the stored index is the held element's position. *)
Definition held (w : World) (g l a c : node) : Prop :=
  wf_dom (document w) /\ dragging w g l a
  /\ State.sortableContainer (state w) = Some c
  /\ in_sync (state w) (document w).


(** ** The worlds the handlers produce, written out *)

Definition inserted (pos : Position) (t e : node) (cs : list node) : list node :=
  match pos with
  | beforebegin => insert_before t e cs
  | afterend => insert_after t e cs
  end.

(** The texts [describe] writes. *)
Definition grabbed_text (st : State.t) (d : Dom) (l : node) : string :=
  ("Item grabbed. Current position is " +:+ show_position (State.draggingIndex st)
   +:+ " of " +:+ show_nat (length (children_of d l))
   +:+ ". Use up or down arrows to change position, spacebar to drop.")%string.

Definition dropped_text (st : State.t) : string :=
  ("Item dropped at position " +:+ show_position (State.draggingIndex st) +:+ ".")%string.

(** The direction [sort] computes for target [t]. *)
Definition direction (w : World) (t : node) : Position :=
  if js_lt (getSortableIndex (state w) (document w) (Some t))
           (State.draggingIndex (state w))
  then beforebegin else afterend.

(** The page after lines 137-140 of [sort], and the world after line 146. *)
Definition moved (w : World) (g t p : node) : Dom :=
  place (detach (document w) g) g t p (direction w t).

Definition resorted (w : World) (g l a t p : node) : World :=
  let d0 := moved w g t p in
  let st0 := set_draggingElement (Some g) (state w) in
  let st1 := set_draggingIndex (getSortableIndex st0 d0 (Some g)) st0 in
  mkWorld st1 (assign_text d0 a (grabbed_text st1 d0 l)) (fired w).

(** The page after lines 76-77 of [start], and the state after line 73. *)
Definition classed (cfg : Config.t) (d : Dom) (g c : node) : Dom :=
  update (update d g (fun e => set_classList
                        (class_add (Config.draggingElementClass cfg) (classList e)) e))
         c (fun e => set_classList (class_add (Config.draggingClass cfg) (classList e)) e).

Definition started (cfg : Config.t) (e : Event) (w : World) (l c : node)
    (a : option node) : State.t :=
  State.mk a (Some (target e))
    (Some (default 0 (scan (Some (target e)) (children_of (document w) l) 0)))
    (Some c) (Some l).

(** The page after lines 112-113 of [end], and the world [end] leaves. *)
Definition unclassed (cfg : Config.t) (d : Dom) (g c : node) : Dom :=
  update (update d g (fun e => set_classList
                        (class_remove (Config.draggingElementClass cfg) (classList e)) e))
         c (fun e => set_classList (class_remove (Config.draggingClass cfg) (classList e)) e).

Definition ended (cfg : Config.t) (w : World) (g c a : node) : World :=
  mkWorld (State.mk (Some a) None None None None)
          (assign_text (unclassed cfg (document w) g c) a
             (dropped_text (set_draggingElement None (state w))))
          (fired w).

(** What [keydown] does after an arrow key moved the held element. *)
Definition focus_dragging : M unit :=
  st ← get_state;
  g ← deref (State.draggingElement st);
  focus_element g.

(** ** Example pages

    [demo_page]: a container (1) holding the assistive [span] (2) and one
    list (3) with the items A, B, C, D (10-13).
    [two_lists_page]: the same container holding two lists, (3) with A, B
    and (4) with C, D.
    [headed_page]: one list whose first child (9) is a heading that is not
    sortable, followed by A and B. *)

Definition item (p : node) : Element :=
  mkElement "li" ["data-sortable"; "draggable"; "tabindex"]%string [] "" true (Some p) [].

Definition demo_page : Dom :=
  mkDom (list_to_map
    [ (1, mkElement "div" [] ["sortable"%string] "" false None [2; 3]);
      (2, mkElement "span" [] ["assistive"%string] "" false (Some 1) []);
      (3, mkElement "ul" [] [] "" false (Some 1) [10; 11; 12; 13]);
      (10, item 3); (11, item 3); (12, item 3); (13, item 3) ]) None.

Definition two_lists_page : Dom :=
  mkDom (list_to_map
    [ (1, mkElement "div" [] ["sortable"%string] "" false None [2; 3; 4]);
      (2, mkElement "span" [] ["assistive"%string] "" false (Some 1) []);
      (3, mkElement "ul" [] [] "" false (Some 1) [10; 11]);
      (4, mkElement "ul" [] [] "" false (Some 1) [12; 13]);
      (10, item 3); (11, item 3); (12, item 4); (13, item 4) ]) None.

Definition headed_page : Dom :=
  mkDom (list_to_map
    [ (1, mkElement "div" [] ["sortable"%string] "" false None [2; 3]);
      (2, mkElement "span" [] ["assistive"%string] "" false (Some 1) []);
      (3, mkElement "ul" [] [] "" false (Some 1) [9; 10; 11]);
      (9, mkElement "li" [] [] "" false (Some 3) []);
      (10, item 3); (11, item 3) ]) None.

(** A drag event on [n], and a key press with the focus on [n]. *)
Definition on (n : node) : Event := mkEvent n "".
Definition press (k : string) (n : node) : Event := mkEvent n k.

(** The demo page after A (10) was grabbed, after it was then dragged over
    C (12), and after it was then dragged over B (11). *)
Definition held_world : World := after (start default_config (on 10)) (init demo_page).
Definition over_C : World := after (over default_config (on 12)) held_world.
Definition over_C_then_B : World := after (over default_config (on 11)) over_C.

(** [held_world] with the focus on the held element A, as it is after A
    was grabbed with the keyboard. *)
Definition held_focused : World :=
  mkWorld (state held_world) (focus (document held_world) 10) (fired held_world).

(** The two-list page after A (10) was grabbed, after it was then dragged
    over C (12), a sortable of the other list in the same container, and
    after that drag was ended. *)
Definition held_two_lists : World :=
  after (start default_config (on 10)) (init two_lists_page).
Definition crossed_world : World := after (over default_config (on 12)) held_two_lists.
Definition crossed_and_dropped : World := after (end_ default_config (on 10)) crossed_world.


Definition loose_page : Dom :=
  mkDom (list_to_map
    [ (3, mkElement "ul" [] [] "" false None [10; 11]);
      (10, item 3); (11, item 3) ]) None.

Definition nested_page : Dom :=
  mkDom (list_to_map
    [ (1, mkElement "div" [] ["sortable"%string] "" false None [2; 3]);
      (2, mkElement "span" [] ["assistive"%string] "" false (Some 1) []);
      (3, mkElement "ul" [] [] "" false (Some 1) [10; 11]);
      (10, mkElement "li" ["data-sortable"%string] [] "" true (Some 3) [20]);
      (11, item 3);
      (20, mkElement "span" ["data-sortable"%string] [] "" false (Some 10) []) ]) None.

(** What an element shows apart from its place in the tree and its text. *)
Definition looks (e : Element) : string * list string * list string * bool :=
  (tagName e, attributes e, classList e, focusable e).

(** Applies [h] to the class list of what an element shows. *)
Definition reclass (h : list string -> list string)
    (x : string * list string * list string * bool) : string * list string * list string * bool :=
  let '(t, ats, cl, fo) := x in (t, ats, h cl, fo).

(** ** Proof tools *)

(** Splits on every equality test in sight. *)
Ltac split_cases :=
  repeat case_decide; simplify_eq; try reflexivity; try congruence.

(** Exposes the plumbing of a computation. *)
Ltac unfold_monad :=
  unfold mbind, M_bind, bind, ret, throw, get_state, get_document,
    modify_state, modify_document, deref in *.

(** * Properties *)

(** ** Facts about the page operations *)

Lemma elem_update d n f m :
  elem (update d n f) m = if decide (n = m) then f (elem d n) else elem d m.
Proof.
  unfold elem at 1, update; simpl. rewrite lookup_insert.
  destruct (decide (n = m)); reflexivity.
Qed.

Lemma elem_with_active a d n : elem (with_active a d) n = elem d n.
Proof. reflexivity. Qed.

Lemma elem_stored d n :
  elem d n <> blank -> exists e, elements d !! n = Some e /\ elem d n = e.
Proof.
  unfold elem. destruct (elements d !! n) as [e|]; simpl; [eauto | congruence].
Qed.

Lemma parent_of_detach d c n :
  parent_of (detach d c) n = if decide (n = c) then None else parent_of d n.
Proof.
  unfold detach. destruct (parent_of d c) as [p|] eqn:Hp.
  - unfold parent_of. rewrite elem_with_active, !elem_update. split_cases.
  - split_cases.
Qed.

Lemma children_of_detach d c q :
  children_of (detach d c) q =
  if decide (parent_of d c = Some q) then without c (children_of d q)
  else children_of d q.
Proof.
  unfold detach. destruct (parent_of d c) as [p|] eqn:Hp.
  - unfold children_of. rewrite elem_with_active, !elem_update. split_cases.
  - split_cases.
Qed.

Lemma children_of_place d e t p pos q :
  children_of (place d e t p pos) q =
  if decide (q = p) then inserted pos t e (children_of (detach d e) p)
  else children_of (detach d e) q.
Proof.
  unfold place, children_of. rewrite !elem_update.
  split_cases; destruct pos; reflexivity.
Qed.

Lemma parent_of_place d e t p pos n :
  parent_of (place d e t p pos) n =
  if decide (n = e) then Some p else parent_of (detach d e) n.
Proof.
  unfold place, parent_of. rewrite !elem_update. split_cases.
Qed.

Lemma children_of_assign_text d a s q :
  children_of d a = [] -> children_of (assign_text d a s) q = children_of d q.
Proof.
  intros Ha. unfold assign_text. rewrite Ha. simpl.
  unfold children_of in *. rewrite elem_with_active, elem_update.
  split_cases. simpl. symmetry. exact Ha.
Qed.

Lemma parent_of_assign_text d a s n :
  children_of d a = [] -> parent_of (assign_text d a s) n = parent_of d n.
Proof.
  intros Ha. unfold assign_text. rewrite Ha. simpl.
  unfold parent_of. rewrite elem_with_active, elem_update. split_cases.
Qed.

Lemma detach_twice d g : detach (detach d g) g = detach d g.
Proof.
  unfold detach at 1. rewrite parent_of_detach.
  rewrite decide_True by reflexivity. reflexivity.
Qed.

(** *** Child list edits *)

Lemma not_in_without e cs : e ∉ without e cs.
Proof. unfold without. rewrite list_elem_of_filter. tauto. Qed.

Lemma in_without e x cs : x ∈ without e cs <-> x <> e /\ x ∈ cs.
Proof. unfold without. rewrite list_elem_of_filter. reflexivity. Qed.

Lemma without_absent e cs : e ∉ cs -> without e cs = cs.
Proof.
  induction cs as [|c r IH]; intros H; [reflexivity|].
  unfold without in *. rewrite filter_cons.
  rewrite not_elem_of_cons in H. destruct H as [Hc Hr].
  rewrite decide_True by congruence. f_equal. auto.
Qed.

Lemma without_perm e cs : NoDup cs -> e ∈ cs -> e :: without e cs ≡ₚ cs.
Proof.
  induction 1 as [|c r Hc Hr IH]; intros Hin; [inversion Hin|].
  unfold without in *. rewrite filter_cons.
  destruct (decide (c <> e)) as [Hne|Heq].
  - apply elem_of_cons in Hin as [->|Hin]; [congruence|].
    rewrite Permutation_swap. constructor. auto.
  - apply dec_stable in Heq. subst c. constructor.
    fold (without e r). rewrite without_absent by assumption. reflexivity.
Qed.

Lemma NoDup_without e cs : NoDup cs -> NoDup (without e cs).
Proof. apply NoDup_filter. Qed.

Lemma insert_before_split t e cs :
  t ∈ cs ->
  exists xs ys : list node,
    cs = xs ++ (t :: ys) /\ (t ∉ xs) /\ insert_before t e cs = xs ++ (e :: t :: ys).
Proof.
  induction cs as [|c r IH]; intros Hin; [inversion Hin|]. simpl.
  destruct (decide (c = t)) as [->|Hne].
  - exists [], r. repeat split. apply not_elem_of_nil.
  - apply elem_of_cons in Hin as [->|Hin]; [congruence|].
    destruct (IH Hin) as (xs & ys & -> & Hx & ->).
    exists (c :: xs), ys. repeat split.
    rewrite not_elem_of_cons. split; [congruence | assumption].
Qed.

Lemma insert_after_split t e cs :
  t ∈ cs ->
  exists xs ys : list node,
    cs = xs ++ (t :: ys) /\ (t ∉ xs) /\ insert_after t e cs = xs ++ (t :: e :: ys).
Proof.
  induction cs as [|c r IH]; intros Hin; [inversion Hin|]. simpl.
  destruct (decide (c = t)) as [->|Hne].
  - exists [], r. repeat split. apply not_elem_of_nil.
  - apply elem_of_cons in Hin as [->|Hin]; [congruence|].
    destruct (IH Hin) as (xs & ys & -> & Hx & ->).
    exists (c :: xs), ys. repeat split.
    rewrite not_elem_of_cons. split; [congruence | assumption].
Qed.

Lemma inserted_perm pos t e cs : inserted pos t e cs ≡ₚ e :: cs.
Proof.
  destruct pos; simpl; induction cs as [|c r IH]; simpl; try reflexivity;
    destruct (decide (c = t)); try reflexivity.
  - rewrite IH. apply Permutation_swap.
  - apply Permutation_swap.
  - rewrite IH. apply Permutation_swap.
Qed.

Lemma NoDup_inserted pos t g cs :
  NoDup cs -> NoDup (inserted pos t g (without g cs)).
Proof.
  intros Hcs. rewrite inserted_perm. constructor.
  - apply not_in_without.
  - apply NoDup_without. exact Hcs.
Qed.

(** *** The linear scan *)

Lemma scan_found e cs i j :
  scan (Some e) cs i = Some j ->
  i <= j /\ cs !! (j - i) = Some e /\ forall k, k < j - i -> cs !! k <> Some e.
Proof.
  revert i. induction cs as [|c r IH]; intros i; simpl; [discriminate|].
  destruct (decide (Some c = Some e)) as [Heq|Hne].
  - intros [= <-]. replace (i - i) with 0 by lia. simpl.
    repeat split; [lia | exact Heq | intros k Hk; lia].
  - intros H. destruct (IH _ H) as (Hle & Hat & Hmin).
    replace (j - i) with (S (j - S i)) by lia. simpl.
    repeat split; [lia | exact Hat |].
    intros [|k] Hk; simpl; [congruence | apply Hmin; lia].
Qed.

Lemma scan_none el cs i :
  scan el cs i = None <-> forall c, c ∈ cs -> Some c <> el.
Proof.
  revert i. induction cs as [|c r IH]; intros i; simpl.
  - split; [intros _ c Hc; inversion Hc | reflexivity].
  - destruct (decide (Some c = el)) as [Heq|Hne].
    + split; [discriminate|]. intros H. exfalso. apply (H c); [left | exact Heq].
    + rewrite IH. split.
      * intros H x Hx. apply elem_of_cons in Hx as [->|Hx]; auto.
      * intros H x Hx. apply H. right. exact Hx.
Qed.

Lemma scan_present e cs i : e ∈ cs -> exists j, scan (Some e) cs i = Some j.
Proof.
  intros Hin. destruct (scan (Some e) cs i) as [j|] eqn:Hs; [eauto|].
  exfalso. rewrite scan_none in Hs. exact (Hs e Hin eq_refl).
Qed.

(** ** Well-formed pages *)

Lemma inside_rank (rank : node -> nat) d a b :
  (forall c p, parent_of d c = Some p -> rank p < rank c) ->
  inside d a b -> rank a <= rank b.
Proof.
  intros Hrank H. induction H as [|b q Hb _ IH]; [lia|].
  specialize (Hrank _ _ Hb). lia.
Qed.

Lemma wf_check_sound rank d : wf_check rank d = true -> wf_dom d.
Proof.
  unfold wf_check. intros H. apply bool_decide_eq_true in H.
  assert (Hst : forall n, elem d n <> blank -> wf_element rank d n (elem d n)).
  { intros n Hn. destruct (elem_stored d n Hn) as (e & He & ->).
    exact (H n e He). }
  assert (Hpar : forall c p, parent_of d c = Some p ->
                             c ∈ children_of d p /\ rank p < rank c).
  { intros c p Hp. assert (Hc : elem d c <> blank).
    { intros Hb. unfold parent_of in Hp. rewrite Hb in Hp. discriminate. }
    destruct (Hst c Hc) as (_ & _ & H3). unfold parent_of in Hp.
    rewrite Hp in H3. exact H3. }
  split.
  - intros c p. split; [intros Hp; apply (Hpar c p Hp)|].
    intros Hin. assert (Hc : elem d p <> blank).
    { intros Hb. unfold children_of in Hin. rewrite Hb in Hin.
      simpl in Hin. inversion Hin. }
    destruct (Hst p Hc) as (_ & H2 & _).
    rewrite Forall_forall in H2. apply H2. exact Hin.
  - intros p. unfold children_of, elem.
    destruct (elements d !! p) as [e|] eqn:He; simpl.
    + apply (H p e He).
    + constructor.
  - intros c p Hp Hin.
    apply (inside_rank rank) in Hin; [|intros ? ? ?; eapply Hpar; eassumption].
    destruct (Hpar c p Hp). lia.
Qed.

Lemma contains_from_inside n d a b :
  contains_from n d a b = true -> inside d a b.
Proof.
  revert b. induction n as [|n IH]; intros b; simpl; [discriminate|].
  destruct (decide (b = a)) as [->|_]; [constructor|].
  destruct (parent_of d b) as [q|] eqn:Hq; [|discriminate].
  intros H. eapply inside_child; eauto.
Qed.

Lemma inside_detach d e b : inside (detach d e) e b -> inside d e b.
Proof.
  induction 1 as [|b q Hb _ IH]; [constructor|].
  rewrite parent_of_detach in Hb. destruct (decide (b = e)); [discriminate|].
  eapply inside_child; eauto.
Qed.

Lemma contains_detach_false d e p :
  ~ inside d e p -> contains (detach d e) e p = false.
Proof.
  intros H. destruct (contains (detach d e) e p) eqn:Hc; [|reflexivity].
  exfalso. apply H, inside_detach. eapply contains_from_inside. exact Hc.
Qed.

Lemma sibling_not_inside d g l : wf_dom d -> parent_of d g = Some l -> ~ inside d g l.
Proof. intros Hwf Hg. exact (wf_acyclic d Hwf g l Hg). Qed.

Lemma children_of_detach_wf d g l q :
  wf_dom d -> parent_of d g = Some l ->
  children_of (detach d g) q = without g (children_of d q).
Proof.
  intros Hwf Hg. rewrite children_of_detach, Hg.
  case_decide as Hq; [reflexivity|].
  symmetry. apply without_absent. intros Hin.
  apply (wf_children d Hwf) in Hin. congruence.
Qed.

Lemma same_tree_refl d : same_tree d d.
Proof. intros n. split; reflexivity. Qed.

Lemma same_tree_trans d1 d2 d3 : same_tree d1 d2 -> same_tree d2 d3 -> same_tree d1 d3.
Proof.
  intros H12 H23 n. destruct (H12 n), (H23 n). split; congruence.
Qed.

Lemma same_tree_sym d d' : same_tree d d' -> same_tree d' d.
Proof. intros H n. destruct (H n). split; congruence. Qed.

Lemma same_tree_classes d n cl :
  same_tree d (update d n (fun e => set_classList (cl (classList e)) e)).
Proof.
  intros m. unfold parent_of, children_of. rewrite elem_update.
  case_decide; subst; split; reflexivity.
Qed.

Lemma same_tree_assign_text d a s : children_of d a = [] -> same_tree d (assign_text d a s).
Proof.
  intros Ha n. split; [apply parent_of_assign_text | apply children_of_assign_text];
    exact Ha.
Qed.

Lemma same_tree_focus d n : same_tree d (focus d n).
Proof.
  unfold focus. destruct (focusable (elem d n)); intros m; split; reflexivity.
Qed.

Lemma same_tree_inside d d' a b : same_tree d d' -> inside d a b -> inside d' a b.
Proof.
  intros Hs. induction 1 as [|b q Hb _ IH]; [constructor|].
  eapply inside_child; [|exact IH]. destruct (Hs b) as [Hb' _]. congruence.
Qed.

Lemma same_tree_wf d d' : same_tree d d' -> wf_dom d -> wf_dom d'.
Proof.
  intros Hs [H1 H2 H3]. split.
  - intros c p. destruct (Hs c) as [Hc _], (Hs p) as [_ Hp].
    rewrite Hc, Hp. apply H1.
  - intros p. destruct (Hs p) as [_ Hp]. rewrite Hp. apply H2.
  - intros c p Hp Hin. destruct (Hs c) as [Hc _]. rewrite Hc in Hp.
    apply (H3 c p Hp). eapply same_tree_inside; [apply same_tree_sym|]; eassumption.
Qed.

Lemma same_tree_classed cfg d g c : same_tree d (classed cfg d g c).
Proof.
  unfold classed. eapply same_tree_trans;
    [apply (same_tree_classes d g (class_add (Config.draggingElementClass cfg)))
    |apply (same_tree_classes _ c (class_add (Config.draggingClass cfg)))].
Qed.

Lemma same_tree_unclassed cfg d g c : same_tree d (unclassed cfg d g c).
Proof.
  unfold unclassed. eapply same_tree_trans;
    [apply (same_tree_classes d g (class_remove (Config.draggingElementClass cfg)))
    |apply (same_tree_classes _ c (class_remove (Config.draggingClass cfg)))].
Qed.

Lemma demo_page_wf : wf_dom demo_page.
Proof. apply (wf_check_sound id). vm_compute. reflexivity. Qed.

Lemma two_lists_page_wf : wf_dom two_lists_page.
Proof. apply (wf_check_sound id). vm_compute. reflexivity. Qed.

(** *** The fuel of the ancestor walks suffices *)

Lemma inside_chain d a b : inside d a b -> exists ps, chain d a ps b.
Proof.
  induction 1 as [|b q Hb _ [ps IH]]; [exists []; constructor|].
  exists (b :: ps). econstructor; eassumption.
Qed.

Lemma chain_inside d a ps b : chain d a ps b -> inside d a b.
Proof. induction 1; [constructor | eapply inside_child; eassumption]. Qed.

Lemma chain_member d a ps b x : chain d a ps b -> x ∈ ps -> inside d x b.
Proof.
  induction 1 as [|b q ps Hb Hc IH]; intros Hx; [inversion Hx|].
  apply elem_of_cons in Hx as [->|Hx]; [constructor|].
  eapply inside_child; [exact Hb | apply IH; exact Hx].
Qed.

Lemma chain_stored d a ps b x :
  chain d a ps b -> x ∈ ps -> x ∈ dom (elements d).
Proof.
  induction 1 as [|b q ps Hb Hc IH]; intros Hx; [inversion Hx|].
  apply elem_of_cons in Hx as [->|Hx]; [|apply IH; exact Hx].
  apply elem_of_dom. unfold parent_of, elem in Hb.
  destruct (elements d !! b); [eauto | discriminate].
Qed.

Lemma chain_NoDup d a ps b : wf_dom d -> chain d a ps b -> NoDup ps.
Proof.
  intros Hwf. induction 1 as [|b q ps Hb Hc IH]; constructor; [|exact IH].
  intros Hin. apply (wf_acyclic d Hwf b q Hb). eapply chain_member; eassumption.
Qed.

Lemma chain_length d a ps b :
  wf_dom d -> chain d a ps b -> length ps <= size (elements d).
Proof.
  intros Hwf Hc. rewrite <- size_dom.
  rewrite <- (size_list_to_set (C := gset node) ps) by (eapply chain_NoDup; eassumption).
  apply subseteq_size. intros x Hx. apply elem_of_list_to_set in Hx.
  eapply chain_stored; eassumption.
Qed.

Lemma contains_from_chain d a ps b n :
  chain d a ps b -> length ps < n -> contains_from n d a b = true.
Proof.
  intros Hc. revert n. induction Hc as [|b q ps Hb Hc IH]; intros n Hn.
  - destruct n; [lia|]. simpl. rewrite decide_True by reflexivity. reflexivity.
  - destruct n; [simpl in Hn; lia|]. simpl.
    destruct (decide (b = a)); [reflexivity|].
    rewrite Hb. apply IH. simpl in Hn. lia.
Qed.

(** On a well-formed page [contains] decides [inside]. *)
Lemma contains_inside d a b : wf_dom d -> contains d a b = true <-> inside d a b.
Proof.
  intros Hwf. split; [apply contains_from_inside|].
  intros Hin. destruct (inside_chain d a b Hin) as [ps Hc].
  apply (contains_from_chain d a ps b); [exact Hc|].
  pose proof (chain_length d a ps b Hwf Hc). lia.
Qed.

Lemma closest_from_sound n d sel b c :
  closest_from n d sel b = Some c -> inside d c b /\ matches (elem d c) sel = true.
Proof.
  revert b. induction n as [|n IH]; intros b; simpl; [discriminate|].
  destruct (matches (elem d b) sel) eqn:Hm.
  - intros [= <-]. split; [constructor | exact Hm].
  - destruct (parent_of d b) as [q|] eqn:Hq; [|discriminate].
    intros H. destruct (IH _ H) as [Hin Hc]. split; [|exact Hc].
    eapply inside_child; eassumption.
Qed.

Lemma closest_from_chain d sel c ps b n :
  chain d c ps b -> matches (elem d c) sel = true -> length ps < n ->
  is_Some (closest_from n d sel b).
Proof.
  intros Hc Hm. revert n. induction Hc as [|b q ps Hb Hc IH]; intros n Hn.
  - destruct n; [lia|]. simpl. rewrite Hm. eauto.
  - destruct n; [simpl in Hn; lia|]. simpl.
    destruct (matches (elem d b) sel); [eauto|].
    rewrite Hb. apply IH. simpl in Hn. lia.
Qed.

(** On a well-formed page [closest] finds a matching inclusive ancestor
    whenever there is one, and only such. *)
Lemma closest_found d n sel :
  wf_dom d ->
  is_Some (closest d n sel)
  <-> exists c, inside d c n /\ matches (elem d c) sel = true.
Proof.
  intros Hwf. split.
  - intros [c Hc]. exists c. eapply closest_from_sound. exact Hc.
  - intros (c & Hin & Hm). destruct (inside_chain d c n Hin) as [ps Hc].
    apply (closest_from_chain d sel c ps n); [exact Hc | exact Hm |].
    pose proof (chain_length d c ps n Hwf Hc). lia.
Qed.

(** ** Running the handlers *)

Lemma removeChild_child l c w :
  parent_of (document w) c = Some l ->
  removeChild l (Some c) w
  = (Returned tt, mkWorld (state w) (detach (document w) c) (fired w)).
Proof.
  intros Hp. unfold removeChild. unfold_monad. simpl.
  rewrite decide_True by assumption. reflexivity.
Qed.

Lemma insertAdjacentElement_placed t pos e p w :
  parent_of (document w) t = Some p ->
  contains (document w) e p = false ->
  t <> e ->
  insertAdjacentElement t pos (Some e) w
  = (Returned (Some e), mkWorld (state w) (place (document w) e t p pos) (fired w)).
Proof.
  intros Hp Hc Hne. unfold insertAdjacentElement. unfold_monad. simpl.
  rewrite Hp, Hc. rewrite decide_False by assumption. reflexivity.
Qed.

Lemma describe_grabbed g l a w :
  State.draggingElement (state w) = Some g ->
  State.sortableList (state w) = Some l ->
  State.assistiveText (state w) = Some a ->
  describe w
  = (Returned tt,
     mkWorld (state w)
             (assign_text (document w) a (grabbed_text (state w) (document w) l))
             (fired w)).
Proof.
  intros Hg Hl Ha. unfold describe. unfold_monad. simpl.
  rewrite Hg, Hl, Ha. reflexivity.
Qed.

Lemma describe_dropped a w :
  State.draggingElement (state w) = None ->
  State.assistiveText (state w) = Some a ->
  describe w
  = (Returned tt,
     mkWorld (state w) (assign_text (document w) a (dropped_text (state w))) (fired w)).
Proof.
  intros Hg Ha. unfold describe. unfold_monad. simpl.
  rewrite Hg, Ha. reflexivity.
Qed.

Lemma sort_steps_run w g l a t p :
  dragging w g l a ->
  parent_of (document w) t = Some p ->
  t <> g ->
  ~ inside (document w) g p ->
  sort_steps t w = (Returned tt, resorted w g l a t p).
Proof.
  intros [Hg Hl Ha Hgl Hleaf] Hp Hne Hin.
  unfold sort_steps.
  unfold mbind at 1, M_bind at 1, bind at 1, get_state at 1.
  unfold mbind at 1, M_bind at 1, bind at 1, get_document at 1.
  rewrite Hl, Hg.
  unfold mbind at 1, M_bind at 1, bind at 1, deref at 1, ret at 1.
  unfold mbind at 1, M_bind at 1, bind at 1.
  rewrite (removeChild_child l g w Hgl).
  unfold mbind at 1, M_bind at 1, bind at 1.
  rewrite (insertAdjacentElement_placed t _ g p); simpl;
    [ | rewrite parent_of_detach; rewrite decide_False by assumption; exact Hp
      | apply contains_detach_false; exact Hin
      | exact Hne ].
  unfold_monad. simpl.
  erewrite describe_grabbed; simpl; eauto.
Qed.

Section Resorted.
Variables (w : World) (g l a t p : node).
Hypothesis Hwf : wf_dom (document w).
Hypothesis Hdrag : dragging w g l a.
Hypothesis Hp : parent_of (document w) t = Some p.

Lemma assistive_elsewhere : a <> p.
Proof using Hwf Hdrag Hp.
  intros ->. apply (wf_children _ Hwf) in Hp.
  rewrite (drag_leaf _ _ _ _ Hdrag) in Hp. inversion Hp.
Qed.

Lemma detached_children q :
  children_of (detach (document w) g) q = without g (children_of (document w) q).
Proof using Hwf Hdrag.
  exact (children_of_detach_wf _ _ l q Hwf (drag_parent _ _ _ _ Hdrag)).
Qed.

Lemma moved_leaf : children_of (moved w g t p) a = [].
Proof using Hwf Hdrag Hp.
  unfold moved. rewrite children_of_place, detach_twice.
  rewrite decide_False by apply assistive_elsewhere.
  rewrite detached_children, (drag_leaf _ _ _ _ Hdrag). reflexivity.
Qed.

Lemma children_of_moved q :
  children_of (moved w g t p) q =
  if decide (q = p)
  then inserted (direction w t) t g (without g (children_of (document w) q))
  else without g (children_of (document w) q).
Proof using Hwf Hdrag Hp.
  unfold moved. rewrite children_of_place, detach_twice, !detached_children.
  case_decide; subst; reflexivity.
Qed.

Lemma children_of_resorted q :
  children_of (document (resorted w g l a t p)) q = children_of (moved w g t p) q.
Proof using Hwf Hdrag Hp.
  unfold resorted. simpl.
  rewrite children_of_assign_text by apply moved_leaf. reflexivity.
Qed.

Lemma parent_of_resorted n :
  parent_of (document (resorted w g l a t p)) n
  = if decide (n = g) then Some p else parent_of (document w) n.
Proof using Hwf Hdrag Hp.
  unfold resorted. simpl.
  rewrite parent_of_assign_text by apply moved_leaf.
  unfold moved. rewrite parent_of_place, detach_twice, parent_of_detach.
  split_cases.
Qed.

Lemma state_of_resorted :
  state (resorted w g l a t p)
  = State.mk (Some a) (Some g)
      (Some (default 0 (scan (Some g) (children_of (moved w g t p) l) 0)))
      (State.sortableContainer (state w)) (Some l).
Proof using Hdrag.
  destruct Hdrag as [Hg Hl Ha _ _]. unfold resorted. simpl.
  unfold set_draggingIndex, set_draggingElement, getSortableIndex. simpl.
  rewrite Hl, Ha. reflexivity.
Qed.

End Resorted.

Lemma start_run cfg e w l c :
  matches (elem (document w) (target e)) (attr_selector cfg) = true ->
  parent_of (document w) (target e) = Some l ->
  closest (document w) (target e) (Config.sortableContainer cfg) = Some c ->
  let oa := querySelector (document w) c (Config.assistiveText cfg) in
  let st := started cfg e w l c oa in
  let d := classed cfg (document w) (target e) c in
  start cfg e w =
  match oa with
  | Some a => (Returned tt, mkWorld st (assign_text d a (grabbed_text st d l)) (fired w))
  | None => (Thrown TypeError, mkWorld st d (fired w))
  end.
Proof.
  intros Hm Hp Hc oa st d. unfold start.
  unfold mbind at 1, M_bind at 1, bind at 1, get_document at 1.
  rewrite Hm. simpl negb. cbv iota.
  unfold_monad. simpl. unfold classList_add. unfold_monad. simpl.
  rewrite Hc. simpl.
  unfold getSortableIndex. simpl. rewrite Hp. simpl.
  fold oa. fold st.
  unfold describe. unfold_monad. simpl.
  destruct oa as [a|]; reflexivity.
Qed.

Lemma end_run cfg e w g c a :
  State.draggingElement (state w) = Some g ->
  State.sortableContainer (state w) = Some c ->
  State.assistiveText (state w) = Some a ->
  end_ cfg e w = (Returned tt, ended cfg w g c a).
Proof.
  intros Hg Hc Ha. unfold end_, ended.
  unfold mbind at 1, M_bind at 1, bind at 1, get_state at 1.
  rewrite Hg, Hc. unfold classList_remove, describe. unfold_monad. simpl.
  rewrite Ha. unfold_monad. simpl.
  unfold set_sortableList, set_sortableContainer, set_draggingIndex. simpl.
  rewrite Ha. reflexivity.
Qed.

Lemma over_idle cfg e w :
  State.draggingElement (state w) = None -> over cfg e w = (Returned tt, w).
Proof. intros H. unfold over. unfold_monad. rewrite H. reflexivity. Qed.

Lemma over_self cfg e w :
  State.draggingElement (state w) = Some (target e) -> over cfg e w = (Returned tt, w).
Proof.
  intros H. unfold over. unfold_monad. rewrite H.
  rewrite decide_True by reflexivity. reflexivity.
Qed.

Lemma over_non_sortable cfg e w :
  matches (elem (document w) (target e)) (attr_selector cfg) = false ->
  over cfg e w = (Returned tt, w).
Proof.
  intros H. unfold over. unfold_monad. rewrite H.
  destruct (State.draggingElement (state w)) as [g|]; [|reflexivity].
  destruct (decide (g = target e)); reflexivity.
Qed.

Lemma over_outside cfg e w c :
  State.sortableContainer (state w) = Some c ->
  contains (document w) c (target e) = false ->
  over cfg e w = (Returned tt, w).
Proof.
  intros Hc Hin. unfold over. unfold_monad. rewrite Hc.
  destruct (State.draggingElement (state w)) as [g|]; [|reflexivity].
  destruct (decide (g = target e)); [reflexivity|].
  destruct (matches _ _); [|reflexivity]. simpl. rewrite Hin. reflexivity.
Qed.

Lemma over_run cfg e w g c :
  State.draggingElement (state w) = Some g ->
  g <> target e ->
  matches (elem (document w) (target e)) (attr_selector cfg) = true ->
  State.sortableContainer (state w) = Some c ->
  contains (document w) c (target e) = true ->
  over cfg e w = sort cfg (target e) w.
Proof.
  intros Hg Hne Hm Hc Hin. unfold over. unfold_monad.
  rewrite Hg. rewrite decide_False by assumption.
  rewrite Hm, Hc. simpl. rewrite Hin. reflexivity.
Qed.

Lemma sort_run cfg w g l a t p :
  dragging w g l a ->
  parent_of (document w) t = Some p ->
  t <> g ->
  ~ inside (document w) g p ->
  sort cfg t w = fire_onSort cfg (resorted w g l a t p).
Proof.
  intros Hd Hp Hne Hin. unfold sort.
  unfold mbind, M_bind, bind.
  rewrite (sort_steps_run w g l a t p Hd Hp Hne Hin). reflexivity.
Qed.

Lemma fired_fire_onSort cfg w :
  fired (snd (fire_onSort cfg w)) = fired w ++ [(state w, document w)].
Proof.
  unfold fire_onSort. destruct (Config.onSort cfg (state w) (document w)) as [r [st d]].
  reflexivity.
Qed.

Lemma fire_inert cfg w :
  inert (Config.onSort cfg) ->
  fire_onSort cfg w
  = (Returned tt, mkWorld (state w) (document w) (fired w ++ [(state w, document w)])).
Proof. intros H. unfold fire_onSort. rewrite H. reflexivity. Qed.

Lemma sort_fired cfg w g l a t p :
  dragging w g l a ->
  parent_of (document w) t = Some p ->
  t <> g ->
  ~ inside (document w) g p ->
  let w1 := resorted w g l a t p in
  sort cfg t w
  = (let '(r, (st, d)) := Config.onSort cfg (state w1) (document w1) in
     (r, mkWorld st d (fired w ++ [(state w1, document w1)]))).
Proof.
  intros Hd Hp Hne Hin w1. rewrite (sort_run cfg w g l a t p Hd Hp Hne Hin).
  reflexivity.
Qed.

Lemma sort_snapshot cfg w g l a t p :
  dragging w g l a ->
  parent_of (document w) t = Some p ->
  t <> g ->
  ~ inside (document w) g p ->
  let w1 := resorted w g l a t p in
  fired (after (sort cfg t) w) = fired w ++ [(state w1, document w1)].
Proof.
  intros Hd Hp Hne Hin w1. unfold after.
  rewrite (sort_run cfg w g l a t p Hd Hp Hne Hin), fired_fire_onSort.
  reflexivity.
Qed.

Lemma index_of_resorted w g l a t p :
  wf_dom (document w) ->
  dragging w g l a ->
  parent_of (document w) t = Some p ->
  let w1 := resorted w g l a t p in
  State.draggingIndex (state w1) = getSortableIndex (state w1) (document w1) (Some g).
Proof.
  intros Hwf Hd Hp w1. subst w1.
  rewrite (state_of_resorted w g l a t p Hd). unfold getSortableIndex. simpl.
  rewrite (children_of_resorted w g l a t p Hwf Hd Hp). reflexivity.
Qed.

(** A drag-start on a sortable that has a parent, a container and a
    childless assistive element returns, stores all of them, and leaves the
    tree as it was. *)
Lemma start_held cfg e w l c a :
  matches (elem (document w) (target e)) (attr_selector cfg) = true ->
  parent_of (document w) (target e) = Some l ->
  closest (document w) (target e) (Config.sortableContainer cfg) = Some c ->
  querySelector (document w) c (Config.assistiveText cfg) = Some a ->
  children_of (document w) a = [] ->
  let w1 := after (start cfg e) w in
  outcome (start cfg e) w = Returned tt
  /\ state w1 = started cfg e w l c (Some a)
  /\ fired w1 = fired w
  /\ same_tree (document w) (document w1)
  /\ dragging w1 (target e) l a.
Proof.
  intros Hm Hp Hc Ha Hleaf w1. subst w1. unfold after, outcome.
  pose proof (start_run cfg e w l c Hm Hp Hc) as Hrun. simpl in Hrun.
  rewrite Ha in Hrun. rewrite Hrun. simpl.
  assert (Hleaf' : children_of (classed cfg (document w) (target e) c) a = []).
  { destruct (same_tree_classed cfg (document w) (target e) c a) as [_ ->].
    exact Hleaf. }
  assert (Hsame : same_tree (document w)
            (assign_text (classed cfg (document w) (target e) c) a
               (grabbed_text (started cfg e w l c (Some a))
                  (classed cfg (document w) (target e) c) l))).
  { eapply same_tree_trans; [apply same_tree_classed|].
    apply same_tree_assign_text. exact Hleaf'. }
  repeat split; try reflexivity; simpl.
  - apply Hsame.
  - apply Hsame.
  - destruct (Hsame (target e)) as [-> _]. exact Hp.
  - destruct (Hsame a) as [_ ->]. exact Hleaf.
Qed.

(** A drag-end while an element is held returns and leaves the tree as it
    was, provided the assistive element is childless. *)
Lemma end_released cfg e w g c a :
  State.draggingElement (state w) = Some g ->
  State.sortableContainer (state w) = Some c ->
  State.assistiveText (state w) = Some a ->
  children_of (document w) a = [] ->
  let w1 := after (end_ cfg e) w in
  outcome (end_ cfg e) w = Returned tt
  /\ state w1 = State.mk (Some a) None None None None
  /\ fired w1 = fired w
  /\ same_tree (document w) (document w1).
Proof.
  intros Hg Hc Ha Hleaf w1. subst w1. unfold after, outcome.
  rewrite (end_run cfg e w g c a Hg Hc Ha). simpl.
  repeat split; try reflexivity.
  - eapply same_tree_trans; [apply same_tree_unclassed|].
    apply same_tree_assign_text.
    destruct (same_tree_unclassed cfg (document w) g c a) as [_ ->]. exact Hleaf.
  - eapply same_tree_trans; [apply same_tree_unclassed|].
    apply same_tree_assign_text.
    destruct (same_tree_unclassed cfg (document w) g c a) as [_ ->]. exact Hleaf.
Qed.

Lemma held_world_wf : wf_dom (document held_world).
Proof. apply (wf_check_sound id). vm_compute. reflexivity. Qed.

Lemma held_world_dragging : dragging held_world 10 3 2.
Proof. split; vm_compute; reflexivity. Qed.

(** ** Index lookup *)

(** C6. During an active drag (the stored parent list is set) the index
    lookup returns a number: the position of the first child of the stored
    list that is the queried element, found by scanning from the front, and
    0 when no child is the queried element. *)
Theorem getSortableIndex_scan (st : State.t) (d : Dom) (l : node) (el : option node) :
  State.sortableList st = Some l ->
  exists i, getSortableIndex st d el = Some i
    /\ (forall e, el = Some e -> e ∈ children_of d l ->
          children_of d l !! i = Some e
          /\ forall k, k < i -> children_of d l !! k <> Some e)
    /\ ((forall c, c ∈ children_of d l -> Some c <> el) -> i = 0).
Proof.
  intros Hl. unfold getSortableIndex. rewrite Hl.
  destruct (scan el (children_of d l) 0) as [j|] eqn:Hs; simpl.
  - exists j. split; [reflexivity|]. split.
    + intros e -> _. destruct (scan_found _ _ _ _ Hs) as (_ & Hat & Hmin).
      rewrite Nat.sub_0_r in Hat, Hmin. auto.
    + intros Hnone. rewrite <- scan_none with (i := 0) in Hnone. congruence.
  - exists 0. split; [reflexivity|]. split; [|reflexivity].
    intros e -> Hin. rewrite scan_none in Hs. destruct (Hs e Hin eq_refl).
Qed.

Lemma getSortableIndex_scan_witness :
  exists i, getSortableIndex (State.mk None None None None (Some 3)) demo_page (Some 12) = Some i
    /\ (forall e, Some 12 = Some e -> e ∈ children_of demo_page 3 ->
          children_of demo_page 3 !! i = Some e
          /\ forall k, k < i -> children_of demo_page 3 !! k <> Some e)
    /\ ((forall c, c ∈ children_of demo_page 3 -> Some c <> Some 12) -> i = 0).
Proof.
  apply (getSortableIndex_scan (State.mk None None None None (Some 3)) demo_page 3 (Some 12)).
  reflexivity.
Defined.

(** C10. With no stored parent list (no drag active) the index lookup
    returns no number at all, which is not the fallback 0; once a parent
    list is stored it always returns a number. *)
Theorem getSortableIndex_idle (st : State.t) (d : Dom) (el : option node) :
  State.sortableList st = None ->
  getSortableIndex st d el = None
  /\ getSortableIndex st d el <> Some 0
  /\ forall l, exists i, getSortableIndex (set_sortableList (Some l) st) d el = Some i.
Proof.
  intros Hl. unfold getSortableIndex. rewrite Hl.
  split; [reflexivity|]. split; [discriminate|].
  intros l. simpl. eauto.
Qed.

Lemma getSortableIndex_idle_witness :
  getSortableIndex init_state demo_page (Some 10) = None
  /\ getSortableIndex init_state demo_page (Some 10) <> Some 0
  /\ forall l, exists i,
       getSortableIndex (set_sortableList (Some l) init_state) demo_page (Some 10) = Some i.
Proof.
  apply (getSortableIndex_idle init_state demo_page (Some 10)). reflexivity.
Defined.

(** ** Guards *)

(** C5. A drag-over that fails a guard (nothing is held, the target is the
    held element, the target is not a sortable, or the target is outside
    the stored container) returns with the world as it was: same state,
    same page, and no callback invocation recorded. *)
Theorem over_guarded (cfg : Config.t) (e : Event) (w : World) :
  State.draggingElement (state w) = None
  \/ State.draggingElement (state w) = Some (target e)
  \/ matches (elem (document w) (target e)) (attr_selector cfg) = false
  \/ (exists c, State.sortableContainer (state w) = Some c
                /\ contains (document w) c (target e) = false) ->
  over cfg e w = (Returned tt, w).
Proof.
  intros [H|[H|[H|(c & Hc & Hin)]]].
  - apply over_idle. exact H.
  - apply over_self. exact H.
  - apply over_non_sortable. exact H.
  - eapply over_outside; eassumption.
Qed.

Lemma over_guarded_witness :
  let w := after (start default_config (on 10)) (init demo_page) in
  over default_config (on 10) w = (Returned tt, w).
Proof.
  intros w. apply (over_guarded default_config (on 10) w).
  right. left. vm_compute. reflexivity.
Defined.

Lemma start_guarded (cfg : Config.t) (e : Event) (w : World) :
  matches (elem (document w) (target e)) (attr_selector cfg) = false ->
  start cfg e w = (Returned tt, w).
Proof. intros H. unfold start. unfold_monad. rewrite H. reflexivity. Qed.

Lemma keydown_guarded (cfg : Config.t) (e : Event) (w : World) :
  matches (elem (document w) (target e)) (attr_selector cfg) = false ->
  keydown cfg e w = (Returned tt, w).
Proof. intros H. unfold keydown. unfold_monad. rewrite H. reflexivity. Qed.


(** C7, at the input where it fails.  A drag-end that arrives while nothing
    is held throws instead of returning.  (A drag-start or key press on a
    non-sortable is ignored silently, as is a guarded drag-over.) *)
Theorem end_idle_throws (cfg : Config.t) (e : Event) (d : Dom) :
  end_ cfg e (init d) = (Thrown TypeError, init d).
Proof. reflexivity. Qed.

(** In both earlier versions a drag-end with nothing held returns. *)
Lemma earlier_end_idle_returns (e : Event) (d : Dom) :
  Part001.end_ e (init d) = (Returned tt, init d)
  /\ Part002.end_ e (init d) = (Returned tt, init d).
Proof. split; reflexivity. Qed.

(** ** Reordering *)

(** C3. A reorder invokes the callback exactly once: the record of
    invocations grows by one entry, the callback is applied to the state and
    page that entry holds, and that state is the one after the element was
    put back and its index recomputed. *)
Theorem callback_once (cfg : Config.t) (w : World) (g l a t p : node) :
  wf_dom (document w) ->
  dragging w g l a ->
  parent_of (document w) t = Some p ->
  t <> g ->
  ~ inside (document w) g p ->
  exists st1 d1,
    fired (after (sort cfg t) w) = fired w ++ [(st1, d1)]
    /\ sort cfg t w
       = (let '(r, (st, d)) := Config.onSort cfg st1 d1 in
          (r, mkWorld st d (fired w ++ [(st1, d1)])))
    /\ State.draggingElement st1 = Some g
    /\ parent_of d1 g = Some p
    /\ State.draggingIndex st1 = getSortableIndex st1 d1 (Some g)
    /\ State.sortableList st1 = Some l
    /\ State.sortableContainer st1 = State.sortableContainer (state w)
    /\ State.assistiveText st1 = Some a.
Proof.
  intros Hwf Hd Hp Hne Hin.
  exists (state (resorted w g l a t p)), (document (resorted w g l a t p)).
  pose proof (sort_fired cfg w g l a t p Hd Hp Hne Hin) as Hs. simpl in Hs.
  split; [|split; [exact Hs|]].
  - apply (sort_snapshot cfg w g l a t p Hd Hp Hne Hin).
  - split; [rewrite (state_of_resorted w g l a t p Hd); reflexivity|].
    split; [rewrite (parent_of_resorted w g l a t p Hwf Hd Hp);
            rewrite decide_True by reflexivity; reflexivity|].
    split; [apply (index_of_resorted w g l a t p Hwf Hd Hp)|].
    rewrite (state_of_resorted w g l a t p Hd). simpl. auto.
Qed.

Lemma callback_once_witness :
  exists st1 d1,
    fired (after (sort default_config 12) held_world) = fired held_world ++ [(st1, d1)]
    /\ sort default_config 12 held_world
       = (let '(r, (st, d)) := Config.onSort default_config st1 d1 in
          (r, mkWorld st d (fired held_world ++ [(st1, d1)])))
    /\ State.draggingElement st1 = Some 10
    /\ parent_of d1 10 = Some 3
    /\ State.draggingIndex st1 = getSortableIndex st1 d1 (Some 10)
    /\ State.sortableList st1 = Some 3
    /\ State.sortableContainer st1 = State.sortableContainer (state held_world)
    /\ State.assistiveText st1 = Some 2.
Proof.
  apply (callback_once default_config held_world 10 3 2 12 3).
  - exact held_world_wf.
  - exact held_world_dragging.
  - vm_compute. reflexivity.
  - discriminate.
  - apply sibling_not_inside; [exact held_world_wf | vm_compute; reflexivity].
Defined.

(** C4, at an input where it fails.  On the page with two lists in one
    container, A is grabbed and dragged over C, a sortable of the other
    list.  The drag-over passes every guard, also the one meant to keep the
    drag within the same list, and the callback fires; the state it is given
    stores the fallback index 0 while the held element is the second child
    of its parent. *)
Lemma index_out_of_sync :
  outcome (over default_config (on 12)) held_two_lists = Returned tt
  /\ exists st d,
       fired crossed_world = [(st, d)]
       /\ State.draggingElement st = Some 10
       /\ State.draggingIndex st = Some 0
       /\ parent_of d 10 = Some 4
       /\ children_of d 4 = [12; 10; 13]
       /\ ~ in_sync st d.
Proof.
  split; [vm_compute; reflexivity|].
  eexists _, _. split; [vm_compute; reflexivity|].
  repeat split; try (vm_compute; reflexivity).
  intros H. destruct (H 10) as (p & i & Hp & Hi & Hat); [vm_compute; reflexivity|].
  vm_compute in Hp, Hi. injection Hp as <-. injection Hi as <-.
  vm_compute in Hat. discriminate.
Qed.

Lemma resorted_sibling_index w g l a t :
  wf_dom (document w) ->
  dragging w g l a ->
  parent_of (document w) t = Some l ->
  let r := resorted w g l a t l in
  State.draggingElement (state r) = Some g
  /\ parent_of (document r) g = Some l
  /\ exists i, State.draggingIndex (state r) = Some i
       /\ children_of (document r) l !! i = Some g
       /\ forall j, children_of (document r) l !! j = Some g -> j = i.
Proof.
  intros Hwf Hd Hp r.
  assert (Hg : State.draggingElement (state r) = Some g).
  { subst r. rewrite (state_of_resorted w g l a t l Hd). reflexivity. }
  assert (Hl : State.sortableList (state r) = Some l).
  { subst r. rewrite (state_of_resorted w g l a t l Hd). reflexivity. }
  assert (Hpar : parent_of (document r) g = Some l).
  { subst r. rewrite (parent_of_resorted w g l a t l Hwf Hd Hp).
    rewrite decide_True by reflexivity. reflexivity. }
  pose proof (index_of_resorted w g l a t l Hwf Hd Hp) as Hidx.
  change (State.draggingIndex (state r)
          = getSortableIndex (state r) (document r) (Some g)) in Hidx.
  assert (Hcs : children_of (document r) l
                = inserted (direction w t) t g (without g (children_of (document w) l))).
  { subst r. rewrite (children_of_resorted w g l a t l Hwf Hd Hp).
    rewrite (children_of_moved w g l a t l Hwf Hd Hp).
    rewrite decide_True by reflexivity. reflexivity. }
  assert (Hmem : g ∈ children_of (document r) l).
  { rewrite Hcs, inserted_perm. left. }
  assert (Hnd : NoDup (children_of (document r) l)).
  { rewrite Hcs. apply NoDup_inserted, (wf_nodup _ Hwf). }
  destruct (scan_present g (children_of (document r) l) 0 Hmem) as [i Hi].
  destruct (scan_found _ _ _ _ Hi) as (_ & Hat & _). rewrite Nat.sub_0_r in Hat.
  split; [exact Hg|]. split; [exact Hpar|]. exists i. repeat split.
  - rewrite Hidx. unfold getSortableIndex. rewrite Hl, Hi. reflexivity.
  - exact Hat.
  - intros j Hj. exact (NoDup_lookup _ _ _ _ Hnd Hj Hat).
Qed.

Lemma resorted_sibling_in_sync w g l a t :
  wf_dom (document w) ->
  dragging w g l a ->
  parent_of (document w) t = Some l ->
  in_sync (state (resorted w g l a t l)) (document (resorted w g l a t l)).
Proof.
  intros Hwf Hd Hp.
  destruct (resorted_sibling_index w g l a t Hwf Hd Hp) as (Hg & Hpar & i & Hi & Hat & _).
  intros g' Hg'. rewrite Hg in Hg'. injection Hg' as <-. exists l, i. auto.
Qed.

(** When the target is a child of the stored parent list, the state handed
    to the callback has the held element at exactly the stored index among
    the children of its parent, and nowhere else. *)
Theorem index_in_sync_sibling (cfg : Config.t) (w : World) (g l a t : node) :
  wf_dom (document w) ->
  dragging w g l a ->
  parent_of (document w) t = Some l ->
  t <> g ->
  exists st1 d1 i,
    fired (after (sort cfg t) w) = fired w ++ [(st1, d1)]
    /\ in_sync st1 d1
    /\ State.draggingElement st1 = Some g
    /\ State.draggingIndex st1 = Some i
    /\ parent_of d1 g = Some l
    /\ children_of d1 l !! i = Some g
    /\ forall j, children_of d1 l !! j = Some g -> j = i.
Proof.
  intros Hwf Hd Hp Hne.
  pose proof (sibling_not_inside _ _ _ Hwf (drag_parent _ _ _ _ Hd)) as Hin.
  destruct (resorted_sibling_index w g l a t Hwf Hd Hp)
    as (Hg & Hpar & i & Hi & Hat & Huniq).
  exists (state (resorted w g l a t l)), (document (resorted w g l a t l)), i.
  repeat split; try assumption.
  - apply (sort_snapshot cfg w g l a t l Hd Hp Hne Hin).
  - apply (resorted_sibling_in_sync w g l a t Hwf Hd Hp).
Qed.

Lemma index_in_sync_sibling_witness :
  exists st1 d1 i,
    fired (after (sort default_config 12) held_world) = fired held_world ++ [(st1, d1)]
    /\ in_sync st1 d1
    /\ State.draggingElement st1 = Some 10
    /\ State.draggingIndex st1 = Some i
    /\ parent_of d1 10 = Some 3
    /\ children_of d1 3 !! i = Some 10
    /\ forall j, children_of d1 3 !! j = Some 10 -> j = i.
Proof.
  apply (index_in_sync_sibling default_config held_world 10 3 2 12).
  - exact held_world_wf.
  - exact held_world_dragging.
  - vm_compute. reflexivity.
  - discriminate.
Defined.

(** C1 as stated fails in its second example: after the reorder over C the
    list is [[B, C, A, D]] and B is at index 0, above A at index 2, so the
    reorder over B puts A immediately before B. *)
Lemma second_example_differs :
  children_of (document over_C) 3 = [11; 12; 10; 13]
  /\ getSortableIndex (state over_C) (document over_C) (Some 11) = Some 0
  /\ State.draggingIndex (state over_C) = Some 2
  /\ children_of (document over_C_then_B) 3 <> [11; 10; 12; 13]
  /\ State.draggingIndex (state over_C_then_B) <> Some 1.
Proof. repeat split; vm_compute; first [reflexivity | discriminate]. Qed.

(** C1, amended.  For a held element and a target that has a parent and is
    not inside the held element, [sort] moves upward exactly when the index
    lookup of the target is below the stored dragging index; the held
    element leaves every other child list and stands immediately before the
    target when moving upward, immediately after it otherwise.  On
    [[A, B, C, D]] with A grabbed, a reorder over C gives [[B, C, A, D]] with
    index 2, and a following reorder over B gives [[A, B, C, D]] with index 0. *)
Theorem sort_direction_and_place :
  (forall (cfg : Config.t) (w : World) (g l a t p : node) (i di : nat),
      wf_dom (document w) ->
      dragging w g l a ->
      parent_of (document w) t = Some p ->
      t <> g ->
      ~ inside (document w) g p ->
      getSortableIndex (state w) (document w) (Some t) = Some i ->
      State.draggingIndex (state w) = Some di ->
      exists st1 d1 (xs ys : list node),
        fired (after (sort cfg t) w) = fired w ++ [(st1, d1)]
        /\ State.draggingElement st1 = Some g
        /\ without g (children_of (document w) p) = xs ++ (t :: ys)
        /\ (t ∉ xs)
        /\ (i < di -> children_of d1 p = xs ++ (g :: t :: ys))
        /\ (~ i < di -> children_of d1 p = xs ++ (t :: g :: ys))
        /\ parent_of d1 g = Some p
        /\ forall q, q <> p -> children_of d1 q = without g (children_of (document w) q))
  /\ children_of demo_page 3 = [10; 11; 12; 13]
  /\ State.draggingElement (state held_world) = Some 10
  /\ children_of (document over_C) 3 = [11; 12; 10; 13]
  /\ State.draggingIndex (state over_C) = Some 2
  /\ children_of (document over_C_then_B) 3 = [10; 11; 12; 13]
  /\ State.draggingIndex (state over_C_then_B) = Some 0.
Proof.
  split; [|repeat split; vm_compute; reflexivity].
  intros cfg w g l a t p i di Hwf Hd Hp Hne Hin Hi Hdi.
  set (w1 := resorted w g l a t p).
  assert (Ht : t ∈ without g (children_of (document w) p)).
  { apply in_without. split; [exact Hne|]. apply (wf_children _ Hwf). exact Hp. }
  assert (Hcs : children_of (document w1) p
                = inserted (direction w t) t g (without g (children_of (document w) p))).
  { subst w1. rewrite (children_of_resorted w g l a t p Hwf Hd Hp).
    rewrite (children_of_moved w g l a t p Hwf Hd Hp).
    rewrite decide_True by reflexivity. reflexivity. }
  assert (Hdir : direction w t = if Nat.ltb i di then beforebegin else afterend).
  { unfold direction. rewrite Hi, Hdi. reflexivity. }
  rewrite Hdir in Hcs.
  assert (Hrest : forall q, q <> p ->
            children_of (document w1) q = without g (children_of (document w) q)).
  { intros q Hq. subst w1. rewrite (children_of_resorted w g l a t p Hwf Hd Hp).
    rewrite (children_of_moved w g l a t p Hwf Hd Hp).
    rewrite decide_False by assumption. reflexivity. }
  assert (Hpar : parent_of (document w1) g = Some p).
  { subst w1. rewrite (parent_of_resorted w g l a t p Hwf Hd Hp).
    rewrite decide_True by reflexivity. reflexivity. }
  assert (Hg : State.draggingElement (state w1) = Some g).
  { subst w1. rewrite (state_of_resorted w g l a t p Hd). reflexivity. }
  pose proof (sort_snapshot cfg w g l a t p Hd Hp Hne Hin) as Hf.
  destruct (Nat.ltb_spec i di) as [Hlt|Hge]; unfold inserted in Hcs.
  - destruct (insert_before_split t g _ Ht) as (xs & ys & Hsplit & Hx & Hins).
    exists (state w1), (document w1), xs, ys.
    repeat split; try assumption;
      [intros _; rewrite Hcs; exact Hins | intros; lia].
  - destruct (insert_after_split t g _ Ht) as (xs & ys & Hsplit & Hx & Hins).
    exists (state w1), (document w1), xs, ys.
    repeat split; try assumption;
      [intros; lia | intros _; rewrite Hcs; exact Hins].
Qed.

Lemma sort_direction_and_place_witness :
  exists st1 d1 (xs ys : list node),
    fired (after (sort default_config 12) held_world) = fired held_world ++ [(st1, d1)]
    /\ State.draggingElement st1 = Some 10
    /\ without 10 (children_of (document held_world) 3) = xs ++ (12 :: ys)
    /\ (12 ∉ xs)
    /\ (2 < 0 -> children_of d1 3 = xs ++ (10 :: 12 :: ys))
    /\ (~ 2 < 0 -> children_of d1 3 = xs ++ (12 :: 10 :: ys))
    /\ parent_of d1 10 = Some 3
    /\ forall q, q <> 3 -> children_of d1 q = without 10 (children_of (document held_world) q).
Proof.
  apply (proj1 sort_direction_and_place default_config held_world 10 3 2 12 3 2 0).
  - exact held_world_wf.
  - exact held_world_dragging.
  - vm_compute. reflexivity.
  - discriminate.
  - apply sibling_not_inside; [exact held_world_wf | vm_compute; reflexivity].
  - vm_compute. reflexivity.
  - vm_compute. reflexivity.
Defined.

(** The first version always inserts after the target: dragging C over B
    leaves [[A, B, C, D]] where the later versions give [[A, C, B, D]]. *)
Lemma first_version_inserts_after :
  let grab (start : Config.t -> Event -> M unit) :=
    after (start default_config (on 12)) (init demo_page) in
  children_of (document (after (Part001.over default_config (on 11))
                           (grab Part001.start))) 3 = [10; 11; 12; 13]
  /\ children_of (document (after (Part002.over default_config (on 11))
                              (grab Part002.start))) 3 = [10; 12; 11; 13]
  /\ children_of (document (after (over default_config (on 11)) (grab start))) 3
     = [10; 12; 11; 13].
Proof. repeat split; vm_compute; reflexivity. Qed.

(** Neither earlier version of [sort] invokes the callback. *)
Lemma earlier_sort_silent (t : node) (w : World) :
  fired (after (Part001.sort t) w) = fired w
  /\ fired (after (Part002.sort t) w) = fired w.
Proof.
  unfold after, Part001.sort, Part002.sort, removeChild, insertAdjacentElement.
  unfold_monad. simpl.
  destruct (State.sortableList (state w)) as [l|]; simpl; [|split; reflexivity].
  destruct (State.draggingElement (state w)) as [g|]; simpl; [|split; reflexivity].
  destruct (decide (parent_of (document w) g = Some l)); simpl; [|split; reflexivity].
  destruct (parent_of (detach (document w) g) t) as [p|]; simpl; [|split; reflexivity].
  destruct (contains (detach (document w) g) g p); simpl; [split; reflexivity|].
  destruct (decide (t = g)); simpl; split; reflexivity.
Qed.

(** ** A whole drag *)

(** C2, at an input where it fails.  On the page with two lists in one
    container, a drag-start on A, a drag-over on C (a sortable of the other
    list, which the guard meant to keep the drag within the same list lets
    through) and a drag-end all return, and A's list has lost A: A is now a
    child of the other list while the state still names the first list, so
    that a further drag-over throws. *)
Lemma list_loses_item :
  outcome (start default_config (on 10)) (init two_lists_page) = Returned tt
  /\ outcome (over default_config (on 12)) held_two_lists = Returned tt
  /\ outcome (end_ default_config (on 10)) crossed_world = Returned tt
  /\ length (fired crossed_world) = 1
  /\ children_of two_lists_page 3 = [10; 11]
  /\ children_of (document crossed_and_dropped) 3 = [11]
  /\ ~ (children_of (document crossed_and_dropped) 3 ≡ₚ children_of two_lists_page 3)
  /\ parent_of (document crossed_world) 10 = Some 4
  /\ State.sortableList (state crossed_world) = Some 3
  /\ outcome (over default_config (on 13)) crossed_world = Thrown NotFoundError.
Proof.
  repeat split; try (vm_compute; reflexivity).
  intros H. apply Permutation_length in H. vm_compute in H. discriminate.
Qed.

(** A drag-start on a sortable, a drag-over on a valid target that is a
    child of the same parent list, and a drag-end all return, and the
    children of that list are afterwards a permutation of what they were:
    same items, same length. *)
Theorem drag_permutes_siblings (cfg : Config.t) (e1 e2 e3 : Event) (w0 : World)
    (l c a : node) :
  wf_dom (document w0) ->
  inert (Config.onSort cfg) ->
  matches (elem (document w0) (target e1)) (attr_selector cfg) = true ->
  parent_of (document w0) (target e1) = Some l ->
  closest (document w0) (target e1) (Config.sortableContainer cfg) = Some c ->
  querySelector (document w0) c (Config.assistiveText cfg) = Some a ->
  children_of (document w0) a = [] ->
  let w1 := after (start cfg e1) w0 in
  target e2 <> target e1 ->
  matches (elem (document w1) (target e2)) (attr_selector cfg) = true ->
  contains (document w1) c (target e2) = true ->
  parent_of (document w0) (target e2) = Some l ->
  let w2 := after (over cfg e2) w1 in
  let w3 := after (end_ cfg e3) w2 in
  outcome (start cfg e1) w0 = Returned tt
  /\ outcome (over cfg e2) w1 = Returned tt
  /\ outcome (end_ cfg e3) w2 = Returned tt
  /\ fired w3 = fired w0 ++ [(state w2, document w2)]
  /\ children_of (document w3) l ≡ₚ children_of (document w0) l
  /\ length (children_of (document w3) l) = length (children_of (document w0) l)
  /\ forall x, x ∈ children_of (document w3) l <-> x ∈ children_of (document w0) l.
Proof.
  intros Hwf Hcb Hm Hp Hc Ha Hleaf w1 Hne Hm2 Hin2 Hp2 w2 w3.
  destruct (start_held cfg e1 w0 l c a Hm Hp Hc Ha Hleaf)
    as (Hout1 & Hst1 & Hf1 & Hsame1 & Hdrag1).
  fold w1 in Hst1, Hf1, Hsame1, Hdrag1.
  pose proof (same_tree_wf _ _ Hsame1 Hwf) as Hwf1.
  assert (Hp2' : parent_of (document w1) (target e2) = Some l).
  { destruct (Hsame1 (target e2)) as [-> _]. exact Hp2. }
  assert (Hc1 : State.sortableContainer (state w1) = Some c).
  { rewrite Hst1. reflexivity. }
  pose proof (sibling_not_inside _ _ _ Hwf1 (drag_parent _ _ _ _ Hdrag1)) as Hni.
  assert (Hover : over cfg e2 w1
                  = fire_onSort cfg (resorted w1 (target e1) l a (target e2) l)).
  { rewrite (over_run cfg e2 w1 (target e1) c
               (drag_element _ _ _ _ Hdrag1) (not_eq_sym Hne) Hm2 Hc1 Hin2).
    apply (sort_run cfg w1 (target e1) l a (target e2) l Hdrag1 Hp2' Hne Hni). }
  rewrite (fire_inert cfg _ Hcb) in Hover.
  pose proof (state_of_resorted w1 _ l a (target e2) l Hdrag1) as Hr_state.
  rewrite Hc1 in Hr_state.
  pose proof (moved_leaf w1 _ l a _ l Hwf1 Hdrag1 Hp2') as Hr_leaf.
  rewrite <- (children_of_resorted w1 _ l a _ l Hwf1 Hdrag1 Hp2') in Hr_leaf.
  pose proof (children_of_moved w1 _ l a _ l Hwf1 Hdrag1 Hp2' l) as Hr_l.
  rewrite <- (children_of_resorted w1 _ l a _ l Hwf1 Hdrag1 Hp2') in Hr_l.
  rewrite decide_True in Hr_l by reflexivity.
  assert (Hr_fired : fired (resorted w1 (target e1) l a (target e2) l) = fired w1)
    by reflexivity.
  remember (resorted w1 (target e1) l a (target e2) l) as r eqn:Hr. clear Hr.
  assert (Hw2 : w2 = mkWorld (state r) (document r)
                       (fired r ++ [(state r, document r)])).
  { subst w2. unfold after. rewrite Hover. reflexivity. }
  assert (Hd2 : document w2 = document r) by (rewrite Hw2; reflexivity).
  assert (Hs2 : state w2 = state r) by (rewrite Hw2; reflexivity).
  assert (Hf2 : fired w2 = fired r ++ [(state r, document r)])
    by (rewrite Hw2; reflexivity).
  destruct (end_released cfg e3 w2 (target e1) c a) as (Hout3 & _ & Hf3 & Hsame3);
    [rewrite Hs2, Hr_state; reflexivity .. | rewrite Hd2; exact Hr_leaf |].
  fold w3 in Hf3, Hsame3.
  assert (Hcs : children_of (document w3) l
                = inserted (direction w1 (target e2)) (target e2) (target e1)
                    (without (target e1) (children_of (document w0) l))).
  { destruct (Hsame3 l) as [_ ->]. rewrite Hd2, Hr_l.
    destruct (Hsame1 l) as [_ ->]. reflexivity. }
  assert (Hperm : children_of (document w3) l ≡ₚ children_of (document w0) l).
  { rewrite Hcs, inserted_perm. apply without_perm; [apply (wf_nodup _ Hwf)|].
    apply (wf_children _ Hwf). exact Hp. }
  repeat split.
  - exact Hout1.
  - unfold outcome. rewrite Hover. reflexivity.
  - exact Hout3.
  - rewrite Hf3, Hf2, Hr_fired, Hf1, Hs2, Hd2. reflexivity.
  - exact Hperm.
  - apply Permutation_length. exact Hperm.
  - intros Hx. rewrite <- Hperm. exact Hx.
  - intros Hx. rewrite Hperm. exact Hx.
Qed.

Lemma drag_permutes_siblings_witness :
  let w1 := after (start default_config (on 10)) (init demo_page) in
  let w2 := after (over default_config (on 12)) w1 in
  let w3 := after (end_ default_config (on 10)) w2 in
  outcome (start default_config (on 10)) (init demo_page) = Returned tt
  /\ outcome (over default_config (on 12)) w1 = Returned tt
  /\ outcome (end_ default_config (on 10)) w2 = Returned tt
  /\ fired w3 = fired (init demo_page) ++ [(state w2, document w2)]
  /\ children_of (document w3) 3 ≡ₚ children_of demo_page 3
  /\ length (children_of (document w3) 3) = length (children_of demo_page 3)
  /\ forall x, x ∈ children_of (document w3) 3 <-> x ∈ children_of demo_page 3.
Proof.
  apply (drag_permutes_siblings default_config (on 10) (on 12) (on 10)
           (init demo_page) 3 1 2).
  - exact demo_page_wf.
  - intros st d. reflexivity.
  - vm_compute. reflexivity.
  - vm_compute. reflexivity.
  - vm_compute. reflexivity.
  - vm_compute. reflexivity.
  - vm_compute. reflexivity.
  - discriminate.
  - vm_compute. reflexivity.
  - vm_compute. reflexivity.
  - vm_compute. reflexivity.
Defined.

(** ** The four state fields *)

(** A drag-start on a sortable that has a parent and an enclosing
    container stores the element, its index, its parent list and the
    container; a drag-end while an element is held clears the four; and a
    drag-over on a child of the stored list leaves the four set. *)
Theorem fields_set_and_cleared_together (cfg : Config.t) (e : Event) (w : World) :
  (forall l c,
      matches (elem (document w) (target e)) (attr_selector cfg) = true ->
      parent_of (document w) (target e) = Some l ->
      closest (document w) (target e) (Config.sortableContainer cfg) = Some c ->
      let st' := state (after (start cfg e) w) in
      State.draggingElement st' = Some (target e)
      /\ State.draggingIndex st' = getSortableIndex st' (document w) (Some (target e))
      /\ State.sortableList st' = Some l
      /\ State.sortableContainer st' = Some c
      /\ all_set st')
  /\ (forall g c a,
      State.draggingElement (state w) = Some g ->
      State.sortableContainer (state w) = Some c ->
      State.assistiveText (state w) = Some a ->
      outcome (end_ cfg e) w = Returned tt
      /\ all_clear (state (after (end_ cfg e) w)))
  /\ (forall g l a,
      wf_dom (document w) ->
      dragging w g l a ->
      all_set (state w) ->
      inert (Config.onSort cfg) ->
      parent_of (document w) (target e) = Some l ->
      outcome (over cfg e) w = Returned tt
      /\ all_set (state (after (over cfg e) w))).
Proof.
  split; [|split].
  - intros l c Hm Hp Hc st'. subst st'. unfold after.
    pose proof (start_run cfg e w l c Hm Hp Hc) as Hrun. simpl in Hrun.
    assert (Hst : state (snd (start cfg e w))
                  = started cfg e w l c
                      (querySelector (document w) c (Config.assistiveText cfg))).
    { rewrite Hrun. destruct (querySelector _ _ _); reflexivity. }
    rewrite Hst. unfold started, all_set, getSortableIndex. simpl.
    repeat split; eauto.
  - intros g c a Hg Hc Ha. unfold after, outcome.
    rewrite (end_run cfg e w g c a Hg Hc Ha). simpl.
    repeat split; reflexivity.
  - intros g l a Hwf Hd Hall Hcb Hp.
    destruct Hall as (_ & Hidx & _ & [c Hc]).
    destruct (decide (g = target e)) as [Heq|Hne].
    { unfold after, outcome. rewrite over_self.
      - simpl. split; [reflexivity|]. repeat split; eauto.
        + rewrite (drag_element _ _ _ _ Hd). eauto.
        + rewrite (drag_list _ _ _ _ Hd). eauto.
      - rewrite (drag_element _ _ _ _ Hd). congruence. }
    destruct (matches (elem (document w) (target e)) (attr_selector cfg)) eqn:Hm;
      [|unfold after, outcome; rewrite over_non_sortable by assumption; simpl;
        split; [reflexivity|]; repeat split; eauto;
        [rewrite (drag_element _ _ _ _ Hd) | rewrite (drag_list _ _ _ _ Hd)]; eauto].
    destruct (contains (document w) c (target e)) eqn:Hin;
      [|unfold after, outcome; rewrite (over_outside cfg e w c Hc Hin); simpl;
        split; [reflexivity|]; repeat split; eauto;
        [rewrite (drag_element _ _ _ _ Hd) | rewrite (drag_list _ _ _ _ Hd)]; eauto].
    unfold after, outcome.
    rewrite (over_run cfg e w g c (drag_element _ _ _ _ Hd) Hne Hm Hc Hin).
    rewrite (sort_run cfg w g l a (target e) l Hd Hp (not_eq_sym Hne)
               (sibling_not_inside _ _ _ Hwf (drag_parent _ _ _ _ Hd))).
    rewrite (fire_inert cfg _ Hcb). simpl. split; [reflexivity|].
    change (all_set (state (resorted w g l a (target e) l))).
    rewrite (state_of_resorted w g l a (target e) l Hd), Hc.
    unfold all_set. simpl. repeat split; eauto.
Qed.

Lemma fields_set_and_cleared_together_witness :
  (let st' := state (after (start default_config (on 10)) (init demo_page)) in
   State.draggingElement st' = Some 10
   /\ State.draggingIndex st' = getSortableIndex st' demo_page (Some 10)
   /\ State.sortableList st' = Some 3
   /\ State.sortableContainer st' = Some 1
   /\ all_set st')
  /\ (outcome (end_ default_config (on 10)) held_world = Returned tt
      /\ all_clear (state (after (end_ default_config (on 10)) held_world)))
  /\ (outcome (over default_config (on 12)) held_world = Returned tt
      /\ all_set (state (after (over default_config (on 12)) held_world))).
Proof.
  split; [|split].
  - apply (proj1 (fields_set_and_cleared_together default_config (on 10) (init demo_page))
             3 1); vm_compute; reflexivity.
  - apply (proj1 (proj2 (fields_set_and_cleared_together default_config (on 10) held_world))
             10 1 2); vm_compute; reflexivity.
  - apply (proj2 (proj2 (fields_set_and_cleared_together default_config (on 12) held_world))
             10 3 2).
    + exact held_world_wf.
    + exact held_world_dragging.
    + vm_compute. repeat split; eauto.
    + intros st d. reflexivity.
    + vm_compute. reflexivity.
Defined.

(** C8, at inputs where it fails.  On the demo page A is grabbed with the
    space bar, which stores all four fields; the arrow-up key with B as its
    target then clears the held element while the index, the list and the
    container stay stored.  And a drag-start on a sortable that has no
    container around it stores the element, its index and its list without
    a container.  Either state has the four fields neither all set nor all
    clear. *)
Theorem fields_left_partially_set :
  let w1 := after (keydown default_config (press " " 10)) (init demo_page) in
  let w2 := after (keydown default_config (press "ArrowUp" 11)) w1 in
  let w3 := after (start default_config (on 10)) (init loose_page) in
  all_set (state w1)
  /\ matches (elem (document w1) 11) (attr_selector default_config) = true
  /\ state w2 = State.mk (Some 2) None (Some 0) (Some 1) (Some 3)
  /\ ~ all_set (state w2)
  /\ ~ all_clear (state w2)
  /\ matches (elem loose_page 10) (attr_selector default_config) = true
  /\ state w3 = State.mk None (Some 10) (Some 0) None (Some 3)
  /\ ~ all_set (state w3)
  /\ ~ all_clear (state w3).
Proof.
  split; [vm_compute; repeat split; eauto|].
  split; [vm_compute; reflexivity|].
  split; [vm_compute; reflexivity|].
  split; [intros ([x H] & _); vm_compute in H; discriminate|].
  split; [intros (_ & H & _); vm_compute in H; discriminate|].
  split; [vm_compute; reflexivity|].
  split; [vm_compute; reflexivity|].
  split; [intros (_ & _ & _ & [x H]); vm_compute in H; discriminate|].
  intros (H & _); vm_compute in H; discriminate.
Qed.

(** ** The keyboard *)

Lemma keydown_space_idle (cfg : Config.t) (e : Event) (w : World) :
  key e = " "%string ->
  State.draggingElement (state w) = None ->
  keydown cfg e w = start cfg e w.
Proof.
  intros Hk Hg. unfold keydown.
  unfold mbind at 1, M_bind at 1, bind at 1, get_document at 1.
  unfold mbind at 1, M_bind at 1, bind at 1, get_state at 1.
  destruct (matches (elem (document w) (target e)) (attr_selector cfg)) eqn:Hm; simpl.
  - rewrite Hk, Hg. reflexivity.
  - symmetry. apply start_guarded. exact Hm.
Qed.

Lemma keydown_space_held (cfg : Config.t) (e : Event) (w : World) (g : node) :
  key e = " "%string ->
  State.draggingElement (state w) = Some g ->
  matches (elem (document w) (target e)) (attr_selector cfg) = true ->
  keydown cfg e w = end_ cfg e w.
Proof.
  intros Hk Hg Hm. unfold keydown.
  unfold mbind at 1, M_bind at 1, bind at 1, get_document at 1.
  unfold mbind at 1, M_bind at 1, bind at 1, get_state at 1.
  rewrite Hm, Hk, Hg. reflexivity.
Qed.

Lemma keydown_arrow_held (cfg : Config.t) (e : Event) (w : World) (g t c : node) :
  is_arrow (key e) = true ->
  State.draggingElement (state w) = Some g ->
  matches (elem (document w) (target e)) (attr_selector cfg) = true ->
  sibling_for (document w) e = Some t ->
  g <> t ->
  matches (elem (document w) t) (attr_selector cfg) = true ->
  State.sortableContainer (state w) = Some c ->
  contains (document w) c t = true ->
  keydown cfg e w = (over cfg (on t) ;; focus_dragging) w.
Proof.
  intros Hk Hg Hm Hs Hne Hmt Hc Hin. unfold keydown.
  unfold mbind at 1, M_bind at 1, bind at 1, get_document at 1.
  unfold mbind at 1, M_bind at 1, bind at 1, get_state at 1.
  rewrite Hm. simpl negb. cbv iota.
  assert (Hsp : String.eqb (key e) " " = false).
  { destruct (String.eqb_spec (key e) " ") as [Heq|]; [|reflexivity].
    rewrite Heq in Hk. discriminate. }
  rewrite Hsp, Hg, Hk, Hs. simpl.
  change ((sort cfg t ;; focus_dragging) w = (over cfg (on t) ;; focus_dragging) w).
  unfold mbind, M_bind, bind.
  rewrite (over_run cfg (on t) w g c Hg Hne Hmt Hc Hin). reflexivity.
Qed.

(** C9, at an input where it fails.  On the demo page A is grabbed with the
    space bar; the arrow-up key then arrives with the focus on B, whose
    previous sibling is A itself.  A drag-over on that sibling is ignored by
    the guard, but the key press takes A out of the list, clears the held
    element while the index, list and container stay set, fires the
    callback, and throws. *)
Theorem keyboard_reorder_unguarded :
  let w1 := after (keydown default_config (press " " 10)) (init demo_page) in
  let e := press "ArrowUp" 11 in
  let w2 := after (keydown default_config e) w1 in
  w1 = held_world
  /\ sibling_for (document w1) e = Some 10
  /\ over default_config (on 10) w1 = (Returned tt, w1)
  /\ outcome (keydown default_config e) w1 = Thrown TypeError
  /\ children_of (document w1) 3 = [10; 11; 12; 13]
  /\ children_of (document w2) 3 = [11; 12; 13]
  /\ parent_of (document w2) 10 = None
  /\ state w2 = State.mk (Some 2) None (Some 0) (Some 1) (Some 3)
  /\ length (fired w2) = 1.
Proof. repeat split; vm_compute; reflexivity. Qed.

(** The arrow keys also move the held element past a sibling that is not a
    sortable, which a drag-over ignores. *)
Lemma keyboard_passes_non_sortable :
  let w1 := after (keydown default_config (press " " 10)) (init headed_page) in
  let e := press "ArrowUp" 10 in
  sibling_for (document w1) e = Some 9
  /\ over default_config (on 9) w1 = (Returned tt, w1)
  /\ outcome (keydown default_config e) w1 = Returned tt
  /\ children_of (document w1) 3 = [9; 10; 11]
  /\ children_of (document (after (keydown default_config e) w1)) 3 = [10; 9; 11].
Proof. repeat split; vm_compute; reflexivity. Qed.

(** ** Any number of drag-overs *)

Lemma inside_same_parents d d' a b :
  (forall n, parent_of d' n = parent_of d n) -> inside d a b -> inside d' a b.
Proof.
  intros Hs. induction 1 as [|b q Hb _ IH]; [constructor|].
  eapply inside_child; [|exact IH]. rewrite Hs. exact Hb.
Qed.

Lemma parent_of_resorted_sibling w g l a t n :
  wf_dom (document w) ->
  dragging w g l a ->
  parent_of (document w) t = Some l ->
  parent_of (document (resorted w g l a t l)) n = parent_of (document w) n.
Proof.
  intros Hwf Hd Hp. rewrite (parent_of_resorted w g l a t l Hwf Hd Hp).
  case_decide; [subst; symmetry; apply Hd | reflexivity].
Qed.

Lemma children_of_resorted_sibling w g l a t :
  wf_dom (document w) ->
  dragging w g l a ->
  parent_of (document w) t = Some l ->
  children_of (document (resorted w g l a t l)) l ≡ₚ children_of (document w) l
  /\ forall q, q <> l ->
       children_of (document (resorted w g l a t l)) q = children_of (document w) q.
Proof.
  intros Hwf Hd Hp. split.
  - rewrite (children_of_resorted w g l a t l Hwf Hd Hp).
    rewrite (children_of_moved w g l a t l Hwf Hd Hp).
    rewrite decide_True by reflexivity. rewrite inserted_perm.
    apply without_perm; [apply (wf_nodup _ Hwf)|].
    apply (wf_children _ Hwf), Hd.
  - intros q Hq. rewrite (children_of_resorted w g l a t l Hwf Hd Hp).
    rewrite (children_of_moved w g l a t l Hwf Hd Hp).
    rewrite decide_False by assumption. apply without_absent.
    intros Hin. apply (wf_children _ Hwf) in Hin.
    rewrite (drag_parent _ _ _ _ Hd) in Hin. congruence.
Qed.

Lemma resorted_sibling_wf w g l a t :
  wf_dom (document w) ->
  dragging w g l a ->
  parent_of (document w) t = Some l ->
  wf_dom (document (resorted w g l a t l)).
Proof.
  intros Hwf Hd Hp.
  pose proof (parent_of_resorted_sibling w g l a t) as Hpar.
  destruct (children_of_resorted_sibling w g l a t Hwf Hd Hp) as [Hperm Hrest].
  split.
  - intros c p. rewrite (Hpar c Hwf Hd Hp).
    destruct (decide (p = l)) as [->|Hne].
    + rewrite Hperm. apply (wf_children _ Hwf).
    + rewrite (Hrest p Hne). apply (wf_children _ Hwf).
  - intros p. destruct (decide (p = l)) as [->|Hne].
    + rewrite Hperm. apply (wf_nodup _ Hwf).
    + rewrite (Hrest p Hne). apply (wf_nodup _ Hwf).
  - intros c p Hc Hin. rewrite (Hpar c Hwf Hd Hp) in Hc.
    apply (wf_acyclic _ Hwf c p Hc).
    eapply inside_same_parents; [|exact Hin].
    intros n. symmetry. apply (Hpar n Hwf Hd Hp).
Qed.

Lemma resorted_sibling_held cfg w g l a c t :
  inert (Config.onSort cfg) ->
  held w g l a c ->
  parent_of (document w) t = Some l ->
  t <> g ->
  let r := resorted w g l a t l in
  sort cfg t w
  = (Returned tt, mkWorld (state r) (document r) (fired w ++ [(state r, document r)]))
  /\ held (mkWorld (state r) (document r) (fired w ++ [(state r, document r)])) g l a c.
Proof.
  intros Hcb (Hwf & Hd & Hc & _) Hp Hne r.
  pose proof (sibling_not_inside _ _ _ Hwf (drag_parent _ _ _ _ Hd)) as Hin.
  split.
  - rewrite (sort_run cfg w g l a t l Hd Hp Hne Hin), (fire_inert cfg _ Hcb).
    reflexivity.
  - destruct (resorted_sibling_index w g l a t Hwf Hd Hp) as (Hg & Hpar & _).
    pose proof (state_of_resorted w g l a t l Hd) as Hst. subst r.
    split; [apply (resorted_sibling_wf w g l a t Hwf Hd Hp)|].
    split; [|split]; cbn [state document].
    + split; cbn [state document].
      * exact Hg.
      * rewrite Hst. reflexivity.
      * rewrite Hst. reflexivity.
      * exact Hpar.
      * rewrite (children_of_resorted w g l a t l Hwf Hd Hp).
        apply (moved_leaf w g l a t l Hwf Hd Hp).
    + rewrite Hst, Hc. reflexivity.
    + apply (resorted_sibling_in_sync w g l a t Hwf Hd Hp).
Qed.





(** * Further properties of the handlers *)

(** ** More on child lists *)

Lemma without_inserted pos t g (cs : list node) :
  g ∉ cs -> without g (inserted pos t g cs) = cs.
Proof.
  intros Hg. destruct pos; simpl; induction cs as [|c r IH]; simpl.
  - unfold without. rewrite filter_cons, decide_False by (intros H; apply H; reflexivity).
    reflexivity.
  - apply not_elem_of_cons in Hg as [Hc Hr].
    destruct (decide (c = t)).
    + unfold without. rewrite filter_cons, decide_False by (intros H; apply H; reflexivity).
      fold (without g (c :: r)). apply without_absent.
      rewrite not_elem_of_cons. auto.
    + unfold without. rewrite filter_cons, decide_True by congruence.
      fold (without g (insert_before t g r)). rewrite IH by assumption. reflexivity.
  - unfold without. rewrite filter_cons, decide_False by (intros H; apply H; reflexivity).
    reflexivity.
  - apply not_elem_of_cons in Hg as [Hc Hr].
    destruct (decide (c = t)).
    + unfold without. rewrite filter_cons, decide_True by congruence.
      rewrite filter_cons, decide_False by (intros H; apply H; reflexivity).
      fold (without g r). rewrite without_absent by assumption. reflexivity.
    + unfold without. rewrite filter_cons, decide_True by congruence.
      fold (without g (insert_after t g r)). rewrite IH by assumption. reflexivity.
Qed.

Lemma insert_before_app t g (xs ys : list node) :
  t ∉ xs -> insert_before t g (xs ++ t :: ys) = xs ++ g :: t :: ys.
Proof.
  induction xs as [|x xs IH]; intros Hx; simpl.
  - rewrite decide_True by reflexivity. reflexivity.
  - apply not_elem_of_cons in Hx as [Hne Hx].
    rewrite decide_False by congruence. rewrite IH by assumption. reflexivity.
Qed.

Lemma insert_after_app t g (xs ys : list node) :
  t ∉ xs -> insert_after t g (xs ++ t :: ys) = xs ++ t :: g :: ys.
Proof.
  induction xs as [|x xs IH]; intros Hx; simpl.
  - rewrite decide_True by reflexivity. reflexivity.
  - apply not_elem_of_cons in Hx as [Hne Hx].
    rewrite decide_False by congruence. rewrite IH by assumption. reflexivity.
Qed.

Lemma without_app g (xs ys : list node) :
  without g (xs ++ ys) = without g xs ++ without g ys.
Proof. unfold without. apply filter_app. Qed.

Lemma without_cons_same g (cs : list node) : without g (g :: cs) = without g cs.
Proof.
  unfold without. rewrite filter_cons, decide_False by (intros H; apply H; reflexivity).
  reflexivity.
Qed.

Lemma without_cons_other g c (cs : list node) :
  c <> g -> without g (c :: cs) = c :: without g cs.
Proof. intros H. unfold without. rewrite filter_cons, decide_True by assumption. reflexivity. Qed.

(** In a list without repetition the scan inverts the lookup. *)
Lemma scan_lookup e (cs : list node) i :
  NoDup cs -> cs !! i = Some e -> scan (Some e) cs 0 = Some i.
Proof.
  intros Hnd Hi.
  assert (Hin : e ∈ cs) by (apply list_elem_of_lookup; eauto).
  destruct (scan_present e cs 0 Hin) as [j Hj]. rewrite Hj. f_equal.
  destruct (scan_found _ _ _ _ Hj) as (_ & Hat & _). rewrite Nat.sub_0_r in Hat.
  exact (NoDup_lookup _ _ _ _ Hnd Hat Hi).
Qed.

Lemma insert_after_lookup t g (cs : list node) k :
  NoDup cs -> cs !! k = Some t -> insert_after t g cs !! S k = Some g.
Proof.
  revert k. induction cs as [|c r IH]; intros k Hnd Hk; [discriminate|].
  apply NoDup_cons in Hnd as [Hc Hr]. simpl.
  destruct (decide (c = t)) as [->|Hne].
  - destruct k; [reflexivity|]. simpl in Hk. exfalso. apply Hc.
    apply list_elem_of_lookup. eauto.
  - destruct k; [simpl in Hk; congruence|]. simpl in Hk. simpl. apply IH; assumption.
Qed.

(** The dragged element lands where the target was. *)
Lemma inserted_takes_position (cs : list node) g t i j :
  NoDup cs -> cs !! i = Some t -> cs !! j = Some g -> t <> g ->
  inserted (if Nat.ltb i j then beforebegin else afterend) t g (without g cs) !! i
  = Some g.
Proof.
  revert i j. induction cs as [|c r IH]; intros i j Hnd Hi Hj Hne; [discriminate|].
  pose proof Hnd as Hnd'. apply NoDup_cons in Hnd' as [Hc Hr].
  destruct (decide (c = t)) as [->|Hct].
  - assert (i = 0) by (apply (NoDup_lookup _ _ _ _ Hnd Hi); reflexivity). subst i.
    destruct j; [simpl in Hj; congruence|]. simpl.
    rewrite without_cons_other by assumption. simpl.
    rewrite decide_True by reflexivity. reflexivity.
  - destruct (decide (c = g)) as [->|Hcg].
    + assert (j = 0) by (apply (NoDup_lookup _ _ _ _ Hnd Hj); reflexivity). subst j.
      destruct i; [simpl in Hi; congruence|]. simpl in Hi.
      replace (Nat.ltb (S i) 0) with false by reflexivity. simpl.
      rewrite without_cons_same, without_absent by assumption.
      apply insert_after_lookup; assumption.
    + destruct i; [simpl in Hi; congruence|]. destruct j; [simpl in Hj; congruence|].
      simpl in Hi, Hj. rewrite without_cons_other by assumption.
      replace (Nat.ltb (S i) (S j)) with (Nat.ltb i j) by reflexivity.
      specialize (IH i j Hr Hi Hj Hne).
      destruct (Nat.ltb i j); simpl in *; rewrite decide_False by assumption;
        simpl; exact IH.
Qed.

(** ** What the page operations leave alone *)

Lemma looks_update d n f m :
  (forall x, looks (f x) = looks x) -> looks (elem (update d n f) m) = looks (elem d m).
Proof. intros Hf. rewrite elem_update. case_decide; subst; auto. Qed.

Lemma text_update d n f m :
  (forall x, textContent (f x) = textContent x) ->
  textContent (elem (update d n f) m) = textContent (elem d m).
Proof. intros Hf. rewrite elem_update. case_decide; subst; auto. Qed.

Lemma looks_detach d c m : looks (elem (detach d c) m) = looks (elem d m).
Proof.
  unfold detach. destruct (parent_of d c); [|reflexivity].
  rewrite elem_with_active, !looks_update; reflexivity.
Qed.

Lemma text_detach d c m : textContent (elem (detach d c) m) = textContent (elem d m).
Proof.
  unfold detach. destruct (parent_of d c); [|reflexivity].
  rewrite elem_with_active, !text_update; reflexivity.
Qed.

Lemma looks_place d e t p pos m : looks (elem (place d e t p pos) m) = looks (elem d m).
Proof. unfold place. rewrite !looks_update by reflexivity. apply looks_detach. Qed.

Lemma text_place d e t p pos m :
  textContent (elem (place d e t p pos) m) = textContent (elem d m).
Proof. unfold place. rewrite !text_update by reflexivity. apply text_detach. Qed.

Lemma looks_orphaned d (cs : list node) m :
  looks (elem (foldr (fun c acc => update acc c (set_parent None)) d cs) m)
  = looks (elem d m).
Proof.
  induction cs as [|c r IH]; simpl; [reflexivity|].
  rewrite looks_update by reflexivity. exact IH.
Qed.

Lemma text_orphaned d (cs : list node) m :
  textContent (elem (foldr (fun c acc => update acc c (set_parent None)) d cs) m)
  = textContent (elem d m).
Proof.
  induction cs as [|c r IH]; simpl; [reflexivity|].
  rewrite text_update by reflexivity. exact IH.
Qed.

Lemma looks_assign_text d a s m : looks (elem (assign_text d a s) m) = looks (elem d m).
Proof.
  unfold assign_text. rewrite elem_with_active, looks_update by reflexivity.
  apply looks_orphaned.
Qed.

Lemma text_assign_text d a s m :
  textContent (elem (assign_text d a s) m)
  = if decide (a = m) then s else textContent (elem d m).
Proof.
  unfold assign_text. rewrite elem_with_active, elem_update.
  case_decide; [reflexivity|]. apply text_orphaned.
Qed.

Lemma active_update d n f : activeElement (update d n f) = activeElement d.
Proof. reflexivity. Qed.

Lemma blurred_none d : blurred d [] = activeElement d.
Proof. unfold blurred. destruct (activeElement d); reflexivity. Qed.

Lemma blurred_one d c :
  blurred d [c]
  = match activeElement d with
    | Some f => if contains d c f then None else Some f
    | None => None
    end.
Proof.
  unfold blurred. destruct (activeElement d); [|reflexivity].
  simpl. rewrite orb_false_r. reflexivity.
Qed.

(** Taking an element out of its parent takes the focus from it and from
    everything inside it. *)
Lemma active_detach d c p :
  parent_of d c = Some p -> activeElement (detach d c) = blurred d [c].
Proof. intros Hp. unfold detach. rewrite Hp. reflexivity. Qed.

Lemma active_detached d c :
  parent_of d c = None -> activeElement (detach d c) = activeElement d.
Proof. intros Hp. unfold detach. rewrite Hp. reflexivity. Qed.

Lemma active_place d e t p pos :
  activeElement (place d e t p pos) = activeElement (detach d e).
Proof. reflexivity. Qed.

Lemma active_assign_text d a s :
  children_of d a = [] -> activeElement (assign_text d a s) = activeElement d.
Proof.
  intros Ha. unfold assign_text. rewrite Ha. apply blurred_none.
Qed.

(** ** Reordering, continued *)

Lemma resorted_at_target_index w g l a c t i :
  held w g l a c ->
  parent_of (document w) t = Some l ->
  t <> g ->
  getSortableIndex (state w) (document w) (Some t) = Some i ->
  let r := resorted w g l a t l in
  children_of (document w) l !! i = Some t
  /\ children_of (document r) l !! i = Some g
  /\ State.draggingIndex (state r) = Some i
  /\ without g (children_of (document r) l) = without g (children_of (document w) l).
Proof.
  intros (Hwf & Hd & Hc & Hsync) Hp Hne Hi r. subst r.
  destruct (Hsync g (drag_element _ _ _ _ Hd)) as (p & j & Hpg & Hj & Hgj).
  rewrite (drag_parent _ _ _ _ Hd) in Hpg. injection Hpg as <-.
  assert (Hti : children_of (document w) l !! i = Some t).
  { unfold getSortableIndex in Hi. rewrite (drag_list _ _ _ _ Hd) in Hi.
    assert (Ht : t ∈ children_of (document w) l) by (apply (wf_children _ Hwf); exact Hp).
    destruct (scan_present t _ 0 Ht) as [k Hk]. rewrite Hk in Hi. simpl in Hi.
    injection Hi as <-. destruct (scan_found _ _ _ _ Hk) as (_ & Hat & _).
    rewrite Nat.sub_0_r in Hat. exact Hat. }
  assert (Hdir : direction w t = if Nat.ltb i j then beforebegin else afterend).
  { unfold direction. rewrite Hi, Hj. reflexivity. }
  assert (Hcs : children_of (document (resorted w g l a t l)) l
                = inserted (direction w t) t g (without g (children_of (document w) l))).
  { rewrite (children_of_resorted w g l a t l Hwf Hd Hp).
    rewrite (children_of_moved w g l a t l Hwf Hd Hp).
    rewrite decide_True by reflexivity. reflexivity. }
  assert (Hat : children_of (document (resorted w g l a t l)) l !! i = Some g).
  { rewrite Hcs, Hdir.
    apply inserted_takes_position; auto. apply (wf_nodup _ Hwf). }
  destruct (resorted_sibling_index w g l a t Hwf Hd Hp)
    as (_ & _ & k & Hk & _ & Huniq).
  split; [exact Hti|]. split; [exact Hat|]. split.
  - rewrite Hk. f_equal. symmetry. apply Huniq. exact Hat.
  - rewrite Hcs. apply without_inserted, not_in_without.
Qed.

(** X7. A reorder over a child of the stored list puts the held element at
    the index the target had, stores that index, and keeps the other
    children in the order they had. *)
Theorem reorder_takes_target_place (cfg : Config.t) (w : World) (g l a c t : node)
    (i : nat) :
  held w g l a c ->
  parent_of (document w) t = Some l ->
  t <> g ->
  getSortableIndex (state w) (document w) (Some t) = Some i ->
  exists st1 d1,
    fired (after (sort cfg t) w) = fired w ++ [(st1, d1)]
    /\ children_of (document w) l !! i = Some t
    /\ children_of d1 l !! i = Some g
    /\ State.draggingIndex st1 = Some i
    /\ without g (children_of d1 l) = without g (children_of (document w) l).
Proof.
  intros Hheld Hp Hne Hi.
  pose proof Hheld as (Hwf & Hd & _).
  pose proof (sibling_not_inside _ _ _ Hwf (drag_parent _ _ _ _ Hd)) as Hin.
  exists (state (resorted w g l a t l)), (document (resorted w g l a t l)).
  split; [apply (sort_snapshot cfg w g l a t l Hd Hp Hne Hin)|].
  apply (resorted_at_target_index w g l a c t i Hheld Hp Hne Hi).
Qed.

Lemma held_world_held : held held_world 10 3 2 1.
Proof.
  split; [exact held_world_wf|]. split; [exact held_world_dragging|].
  split; [vm_compute; reflexivity|].
  intros g Hg. vm_compute in Hg. injection Hg as <-.
  exists 3, 0. vm_compute. auto.
Qed.

Lemma reorder_takes_target_place_witness :
  exists st1 d1,
    fired (after (sort default_config 12) held_world) = fired held_world ++ [(st1, d1)]
    /\ children_of (document held_world) 3 !! 2 = Some 12
    /\ children_of d1 3 !! 2 = Some 10
    /\ State.draggingIndex st1 = Some 2
    /\ without 10 (children_of d1 3) = without 10 (children_of (document held_world) 3).
Proof.
  apply (reorder_takes_target_place default_config held_world 10 3 2 1 12 2).
  - exact held_world_held.
  - vm_compute. reflexivity.
  - discriminate.
  - vm_compute. reflexivity.
Defined.

(** X8. A reorder changes the tree, the text of the assistive element and
    the focus, and nothing else.  No element changes tag, attributes, classes
    or focusability; an element without element children, other than the
    assistive one, keeps its text; the stored list, container and assistive
    element stay.  The focus is lost exactly when it was on the held element
    or inside it: taking the element out of its list takes the focus from
    it, and putting it back does not return it. *)
Theorem reorder_leaves_the_rest (cfg : Config.t) (w : World) (g l a t p : node) :
  wf_dom (document w) ->
  dragging w g l a ->
  parent_of (document w) t = Some p ->
  t <> g ->
  ~ inside (document w) g p ->
  exists st1 d1,
    fired (after (sort cfg t) w) = fired w ++ [(st1, d1)]
    /\ (forall n, looks (elem d1 n) = looks (elem (document w) n))
    /\ (forall n, n <> a -> children_of (document w) n = [] ->
          textContent (elem d1 n) = textContent (elem (document w) n))
    /\ activeElement d1
       = match activeElement (document w) with
         | Some f => if contains (document w) g f then None else Some f
         | None => None
         end
    /\ State.sortableList st1 = State.sortableList (state w)
    /\ State.sortableContainer st1 = State.sortableContainer (state w)
    /\ State.assistiveText st1 = State.assistiveText (state w).
Proof.
  intros Hwf Hd Hp Hne Hin.
  exists (state (resorted w g l a t p)), (document (resorted w g l a t p)).
  split; [apply (sort_snapshot cfg w g l a t p Hd Hp Hne Hin)|].
  pose proof (moved_leaf w g l a t p Hwf Hd Hp) as Hleaf.
  unfold resorted. cbn [state document].
  split; [|split; [|split]].
  - intros n. unfold moved. rewrite looks_assign_text, looks_place. apply looks_detach.
  - intros n Hn _. unfold moved. rewrite text_assign_text, decide_False by congruence.
    rewrite text_place. apply text_detach.
  - rewrite (active_assign_text _ _ _ Hleaf). unfold moved.
    rewrite active_place, detach_twice.
    rewrite (active_detach _ _ l (drag_parent _ _ _ _ Hd)). apply blurred_one.
  - destruct Hd as [Hg Hl Ha _ _]. simpl. rewrite Hl, Ha. auto.
Qed.

Lemma reorder_leaves_the_rest_witness :
  activeElement (document held_focused) = Some 10
  /\ exists st1 d1,
    fired (after (sort default_config 12) held_focused) = fired held_focused ++ [(st1, d1)]
    /\ (forall n, looks (elem d1 n) = looks (elem (document held_focused) n))
    /\ (forall n, n <> 2 -> children_of (document held_focused) n = [] ->
          textContent (elem d1 n) = textContent (elem (document held_focused) n))
    /\ activeElement d1 = None
    /\ State.sortableList st1 = State.sortableList (state held_focused)
    /\ State.sortableContainer st1 = State.sortableContainer (state held_focused)
    /\ State.assistiveText st1 = State.assistiveText (state held_focused).
Proof.
  split; [vm_compute; reflexivity|].
  apply (reorder_leaves_the_rest default_config held_focused 10 3 2 12 3).
  - exact (same_tree_wf _ _ (same_tree_focus _ 10) held_world_wf).
  - split; vm_compute; reflexivity.
  - vm_compute. reflexivity.
  - discriminate.
  - apply sibling_not_inside;
      [exact (same_tree_wf _ _ (same_tree_focus _ 10) held_world_wf)
      | vm_compute; reflexivity].
Defined.

(** ** What the assistive element is told *)



(** X2. After a reorder over a child of the stored list the assistive
    element announces the 1-based index the target had, out of the
    unchanged length of the list. *)
Theorem reorder_announces_position (cfg : Config.t) (w : World) (g l a c t : node)
    (i : nat) :
  held w g l a c ->
  parent_of (document w) t = Some l ->
  t <> g ->
  getSortableIndex (state w) (document w) (Some t) = Some i ->
  exists st1 d1,
    fired (after (sort cfg t) w) = fired w ++ [(st1, d1)]
    /\ length (children_of d1 l) = length (children_of (document w) l)
    /\ textContent (elem d1 a)
       = ("Item grabbed. Current position is " +:+ show_nat (i + 1)
          +:+ " of " +:+ show_nat (length (children_of (document w) l))
          +:+ ". Use up or down arrows to change position, spacebar to drop.")%string.
Proof.
  intros Hheld Hp Hne Hi.
  pose proof Hheld as (Hwf & Hd & _).
  pose proof (sibling_not_inside _ _ _ Hwf (drag_parent _ _ _ _ Hd)) as Hin.
  destruct (resorted_at_target_index w g l a c t i Hheld Hp Hne Hi) as (_ & _ & Hidx & _).
  destruct (children_of_resorted_sibling w g l a t Hwf Hd Hp) as [Hperm _].
  exists (state (resorted w g l a t l)), (document (resorted w g l a t l)).
  split; [apply (sort_snapshot cfg w g l a t l Hd Hp Hne Hin)|].
  split; [apply Permutation_length; exact Hperm|].
  rewrite <- (Permutation_length Hperm).
  rewrite (children_of_resorted w g l a t l Hwf Hd Hp).
  unfold resorted in *. cbn [state document] in *.
  rewrite text_assign_text, decide_True by reflexivity.
  unfold grabbed_text. rewrite Hidx. reflexivity.
Qed.

Lemma reorder_announces_position_witness :
  exists st1 d1,
    fired (after (sort default_config 12) held_world) = fired held_world ++ [(st1, d1)]
    /\ length (children_of d1 3) = length (children_of (document held_world) 3)
    /\ textContent (elem d1 2)
       = ("Item grabbed. Current position is " +:+ show_nat (2 + 1)
          +:+ " of " +:+ show_nat (length (children_of (document held_world) 3))
          +:+ ". Use up or down arrows to change position, spacebar to drop.")%string.
Proof.
  apply (reorder_announces_position default_config held_world 10 3 2 1 12 2).
  - exact held_world_held.
  - vm_compute. reflexivity.
  - discriminate.
  - vm_compute. reflexivity.
Defined.



(** ** Where the handlers throw *)



(** X5. A drag-start on a sortable with no enclosing container throws a
    [TypeError] and leaves the drag fields partially set: the element, its
    list and its index are stored, the container is not.  Page and callback
    record are untouched. *)
Theorem start_without_container_throws (cfg : Config.t) (e : Event) (w : World)
    (l : node) :
  matches (elem (document w) (target e)) (attr_selector cfg) = true ->
  parent_of (document w) (target e) = Some l ->
  closest (document w) (target e) (Config.sortableContainer cfg) = None ->
  let w1 := after (start cfg e) w in
  outcome (start cfg e) w = Thrown TypeError
  /\ State.draggingElement (state w1) = Some (target e)
  /\ is_Some (State.draggingIndex (state w1))
  /\ State.sortableList (state w1) = Some l
  /\ State.sortableContainer (state w1) = None
  /\ document w1 = document w
  /\ fired w1 = fired w.
Proof.
  intros Hm Hp Hc w1.
  assert (Hrun : start cfg e w
    = (Thrown TypeError,
       mkWorld (set_sortableContainer None
                  (set_draggingIndex
                     (Some (default 0 (scan (Some (target e)) (children_of (document w) l) 0)))
                     (set_sortableList (Some l)
                        (set_draggingElement (Some (target e)) (state w)))))
               (document w) (fired w))).
  { unfold start.
    unfold mbind at 1, M_bind at 1, bind at 1, get_document at 1.
    rewrite Hm. simpl negb. cbv iota.
    unfold_monad. simpl. rewrite Hc. simpl.
    unfold getSortableIndex. simpl. rewrite Hp. reflexivity. }
  subst w1. unfold after, outcome. rewrite Hrun. simpl.
  split; [reflexivity|]. split; [reflexivity|]. split; [eexists; reflexivity|].
  repeat split.
Qed.

Lemma start_without_container_throws_witness :
  let w1 := after (start default_config (on 10)) (init loose_page) in
  outcome (start default_config (on 10)) (init loose_page) = Thrown TypeError
  /\ State.draggingElement (state w1) = Some 10
  /\ is_Some (State.draggingIndex (state w1))
  /\ State.sortableList (state w1) = Some 3
  /\ State.sortableContainer (state w1) = None
  /\ document w1 = document (init loose_page)
  /\ fired w1 = fired (init loose_page).
Proof.
  apply (start_without_container_throws default_config (on 10) (init loose_page) 3);
    vm_compute; reflexivity.
Defined.

(** X6. With an element stored but no container, a drag-over on another
    sortable throws a [TypeError] and changes nothing. *)
Theorem over_without_container_throws (cfg : Config.t) (e : Event) (w : World)
    (g : node) :
  State.draggingElement (state w) = Some g ->
  g <> target e ->
  matches (elem (document w) (target e)) (attr_selector cfg) = true ->
  State.sortableContainer (state w) = None ->
  over cfg e w = (Thrown TypeError, w).
Proof.
  intros Hg Hne Hm Hc. unfold over. unfold_monad.
  rewrite Hg. rewrite decide_False by assumption. rewrite Hm, Hc. reflexivity.
Qed.

Lemma over_without_container_throws_witness :
  let w1 := after (start default_config (on 10)) (init loose_page) in
  over default_config (on 11) w1 = (Thrown TypeError, w1).
Proof.
  intros w1.
  apply (over_without_container_throws default_config (on 11) w1 10);
    try (vm_compute; reflexivity). discriminate.
Defined.

(** X9. Once the held element is no longer a child of the stored list, every
    reorder throws a [NotFoundError] and changes nothing; the callback is
    not invoked. *)
Theorem sort_after_leaving_list_throws (cfg : Config.t) (w : World) (g l t : node) :
  State.draggingElement (state w) = Some g ->
  State.sortableList (state w) = Some l ->
  parent_of (document w) g <> Some l ->
  sort cfg t w = (Thrown NotFoundError, w).
Proof.
  intros Hg Hl Hp. unfold sort, sort_steps, removeChild. unfold_monad.
  rewrite Hl, Hg. simpl. rewrite decide_False by assumption. reflexivity.
Qed.

Lemma sort_after_leaving_list_throws_witness :
  sort default_config 13 crossed_world = (Thrown NotFoundError, crossed_world).
Proof.
  apply (sort_after_leaving_list_throws default_config crossed_world 10 3 13);
    try (vm_compute; reflexivity).
  vm_compute. discriminate.
Defined.

Lemma chain_excludes_top d a ps b : wf_dom d -> chain d a ps b -> a ∉ ps.
Proof.
  intros Hwf. induction 1 as [|b q ps Hb Hc IH]; [apply not_elem_of_nil|].
  apply not_elem_of_cons. split; [|exact IH].
  intros ->. apply (wf_acyclic d Hwf b q Hb). eapply chain_inside. exact Hc.
Qed.

Lemma chain_detach d g ps b : chain d g ps b -> g ∉ ps -> chain (detach d g) g ps b.
Proof.
  induction 1 as [|b q ps Hb Hc IH]; intros Hg; [constructor|].
  apply not_elem_of_cons in Hg as [Hne Hg].
  econstructor; [|apply IH; exact Hg].
  rewrite parent_of_detach. rewrite decide_False by congruence. exact Hb.
Qed.

Lemma size_update d n f : size (elements d) <= size (elements (update d n f)).
Proof.
  unfold update. simpl. rewrite map_size_insert.
  destruct (elements d !! n); simpl; unfold id; lia.
Qed.

Lemma size_detach d c : size (elements d) <= size (elements (detach d c)).
Proof.
  unfold detach. destruct (parent_of d c); [|lia].
  etransitivity; [|apply size_update]. apply size_update.
Qed.

Lemma contains_detach_true d g p :
  wf_dom d -> inside d g p -> contains (detach d g) g p = true.
Proof.
  intros Hwf Hin. destruct (inside_chain d g p Hin) as [ps Hc].
  apply (contains_from_chain _ g ps p).
  - apply chain_detach; [exact Hc|]. eapply chain_excludes_top; eassumption.
  - pose proof (chain_length d g ps p Hwf Hc). pose proof (size_detach d g). lia.
Qed.

(** X10. A reorder over a target that lies inside the held element throws a
    [HierarchyRequestError] after the held element was taken out of its
    list: it is left without parent, the state is unchanged and the
    callback is not invoked. *)
Theorem sort_inside_held_throws (cfg : Config.t) (w : World) (g l a t p : node) :
  wf_dom (document w) ->
  dragging w g l a ->
  parent_of (document w) t = Some p ->
  inside (document w) g p ->
  let w1 := after (sort cfg t) w in
  outcome (sort cfg t) w = Thrown HierarchyRequestError
  /\ state w1 = state w
  /\ fired w1 = fired w
  /\ parent_of (document w1) g = None
  /\ children_of (document w1) l = without g (children_of (document w) l)
  /\ (g ∉ children_of (document w1) l).
Proof.
  intros Hwf Hd Hp Hin w1.
  assert (Hne : t <> g).
  { intros ->. exact (wf_acyclic _ Hwf g p Hp Hin). }
  assert (Hrun : sort cfg t w
    = (Thrown HierarchyRequestError,
       mkWorld (state w) (detach (document w) g) (fired w))).
  { unfold sort, sort_steps.
    unfold mbind at 1, M_bind at 1, bind at 1.
    unfold mbind at 1, M_bind at 1, bind at 1, get_state at 1.
    unfold mbind at 1, M_bind at 1, bind at 1, get_document at 1.
    rewrite (drag_list _ _ _ _ Hd), (drag_element _ _ _ _ Hd).
    unfold mbind at 1, M_bind at 1, bind at 1, deref at 1, ret at 1.
    unfold mbind at 1, M_bind at 1, bind at 1.
    rewrite (removeChild_child l g w (drag_parent _ _ _ _ Hd)).
    unfold mbind at 1, M_bind at 1, bind at 1.
    unfold insertAdjacentElement. unfold_monad. simpl.
    rewrite parent_of_detach, decide_False by assumption. rewrite Hp.
    rewrite (contains_detach_true _ _ _ Hwf Hin). reflexivity. }
  subst w1. unfold after, outcome. rewrite Hrun. cbn [fst snd state document fired].
  split; [reflexivity|]. split; [reflexivity|]. split; [reflexivity|]. split.
  - rewrite parent_of_detach, decide_True by reflexivity. reflexivity.
  - rewrite (children_of_detach_wf _ _ l l Hwf (drag_parent _ _ _ _ Hd)).
    split; [reflexivity | apply not_in_without].
Qed.

Lemma nested_page_held :
  let w := after (start default_config (on 10)) (init nested_page) in
  wf_dom (document w) /\ dragging w 10 3 2.
Proof.
  split; [apply (wf_check_sound id); vm_compute; reflexivity|].
  split; vm_compute; reflexivity.
Qed.

Lemma sort_inside_held_throws_witness :
  let w := after (start default_config (on 10)) (init nested_page) in
  let w1 := after (sort default_config 20) w in
  outcome (sort default_config 20) w = Thrown HierarchyRequestError
  /\ state w1 = state w
  /\ fired w1 = fired w
  /\ parent_of (document w1) 10 = None
  /\ children_of (document w1) 3 = without 10 (children_of (document w) 3)
  /\ (10 ∉ children_of (document w1) 3).
Proof.
  intros w.
  apply (sort_inside_held_throws default_config w 10 3 2 20 10).
  - apply nested_page_held.
  - apply nested_page_held.
  - vm_compute. reflexivity.
  - constructor.
Defined.

(** ** The arrow keys *)

Lemma after_in_app g (xs r : list node) :
  g ∉ xs -> after_in g (xs ++ g :: r) = head r.
Proof.
  induction xs as [|x xs IH]; intros Hg; simpl.
  - rewrite decide_True by reflexivity. reflexivity.
  - apply not_elem_of_cons in Hg as [Hne Hg].
    rewrite decide_False by congruence. apply IH. exact Hg.
Qed.

Lemma before_in_app g t (xs ys : list node) :
  g ∉ xs -> g <> t -> before_in g (xs ++ t :: g :: ys) = Some t.
Proof.
  induction xs as [|x xs IH]; intros Hg Hne.
  - simpl. rewrite decide_True by reflexivity. reflexivity.
  - apply not_elem_of_cons in Hg as [Hx Hg].
    change ((x :: xs) ++ t :: g :: ys) with (x :: (xs ++ t :: g :: ys)).
    specialize (IH Hg Hne).
    destruct (xs ++ t :: g :: ys) as [|b r] eqn:Hr; [destruct xs; discriminate|].
    simpl. simpl in IH.
    destruct (decide (b = g)) as [->|_]; [|exact IH].
    exfalso. destruct xs as [|x' xs']; simpl in Hr; injection Hr as <- _.
    + congruence.
    + apply Hg. left.
Qed.

Lemma next_sibling_of d g l (xs r : list node) :
  parent_of d g = Some l -> children_of d l = xs ++ g :: r -> g ∉ xs ->
  nextElementSibling d g = head r.
Proof.
  intros Hp Hcs Hg. unfold nextElementSibling. rewrite Hp, Hcs.
  apply after_in_app. exact Hg.
Qed.

Lemma previous_sibling_of d g l t (xs ys : list node) :
  parent_of d g = Some l -> children_of d l = xs ++ t :: g :: ys ->
  g ∉ xs -> g <> t ->
  previousElementSibling d g = Some t.
Proof.
  intros Hp Hcs Hg Hne. unfold previousElementSibling. rewrite Hp, Hcs.
  pose proof (before_in_app g t xs ys Hg Hne) as Hb.
  destruct (xs ++ t :: g :: ys) as [|b r] eqn:Hr; [destruct xs; discriminate|].
  rewrite decide_False; [exact Hb|].
  destruct xs as [|x xs']; simpl in Hr; injection Hr as <- _.
  - congruence.
  - intros ->. apply Hg. left.
Qed.

Lemma previous_sibling_of_first d g l (ys : list node) :
  parent_of d g = Some l -> children_of d l = g :: ys ->
  previousElementSibling d g = None.
Proof.
  intros Hp Hcs. unfold previousElementSibling. rewrite Hp, Hcs.
  rewrite decide_True by reflexivity. reflexivity.
Qed.

Lemma arrow_is_not_space k : is_arrow k = true -> String.eqb k " " = false.
Proof.
  intros Hk. destruct (String.eqb_spec k " ") as [->|]; [discriminate | reflexivity].
Qed.

(** An arrow key on a sortable while an element is held. *)
Lemma keydown_arrow_run cfg e w g :
  is_arrow (key e) = true ->
  State.draggingElement (state w) = Some g ->
  matches (elem (document w) (target e)) (attr_selector cfg) = true ->
  keydown cfg e w
  = (match sibling_for (document w) e with
     | Some t => sort cfg t
     | None => ret tt
     end ;; focus_dragging) w.
Proof.
  intros Hk Hg Hm. unfold keydown.
  unfold mbind at 1, M_bind at 1, bind at 1, get_document at 1.
  unfold mbind at 1, M_bind at 1, bind at 1, get_state at 1.
  rewrite Hm, (arrow_is_not_space _ Hk), Hg, Hk. reflexivity.
Qed.

(** An arrow key on a sortable while nothing is held. *)
Lemma keydown_arrow_idle_run cfg e w :
  is_arrow (key e) = true ->
  State.draggingElement (state w) = None ->
  matches (elem (document w) (target e)) (attr_selector cfg) = true ->
  keydown cfg e w
  = (Returned tt,
     match sibling_for (document w) e with
     | Some f => mkWorld (state w) (focus (document w) f) (fired w)
     | None => w
     end).
Proof.
  intros Hk Hg Hm. unfold keydown.
  unfold mbind at 1, M_bind at 1, bind at 1, get_document at 1.
  unfold mbind at 1, M_bind at 1, bind at 1, get_state at 1.
  rewrite Hm, (arrow_is_not_space _ Hk), Hg, Hk. simpl.
  destruct (sibling_for (document w) e); reflexivity.
Qed.

Lemma focus_dragging_run w g :
  State.draggingElement (state w) = Some g ->
  focus_dragging w = (Returned tt, mkWorld (state w) (focus (document w) g) (fired w)).
Proof. intros Hg. unfold focus_dragging, focus_element. unfold_monad. rewrite Hg. reflexivity. Qed.

Lemma held_same_tree st d d' f f' g l a c :
  same_tree d d' -> held (mkWorld st d f) g l a c -> held (mkWorld st d' f') g l a c.
Proof.
  intros Hs (Hwf & [Hg Hl Ha Hp Hleaf] & Hc & Hsync). simpl in *.
  split; [exact (same_tree_wf _ _ Hs Hwf)|]. split; [|split; [exact Hc|]].
  - split; simpl; try assumption.
    + destruct (Hs g) as [-> _]. exact Hp.
    + destruct (Hs a) as [_ ->]. exact Hleaf.
  - intros g' Hg'. destruct (Hsync g' Hg') as (p & i & H1 & H2 & H3).
    exists p, i. simpl in *. destruct (Hs g') as [-> _], (Hs p) as [_ ->]. auto.
Qed.

Lemma position_in_app (xs ys : list node) x : (xs ++ x :: ys) !! length xs = Some x.
Proof. rewrite lookup_app_r by lia. rewrite Nat.sub_diag. reflexivity. Qed.

(** A reorder over the neighbour of the held element swaps the two. *)
Lemma sort_swaps_neighbours cfg w g l a c t (xs ys : list node) (up : bool) :
  held w g l a c ->
  inert (Config.onSort cfg) ->
  children_of (document w) l = xs ++ (if up then [t; g] else [g; t]) ++ ys ->
  exists w2,
    sort cfg t w = (Returned tt, w2)
    /\ held w2 g l a c
    /\ children_of (document w2) l = xs ++ (if up then [g; t] else [t; g]) ++ ys
    /\ State.draggingIndex (state w2) = Some (if up then length xs else S (length xs))
    /\ fired w2 = fired w ++ [(state w2, document w2)]
    /\ looks (elem (document w2) g) = looks (elem (document w) g).
Proof.
  intros Hheld Hcb Hcs.
  pose proof Hheld as (Hwf & Hd & Hc & Hsync).
  pose proof (wf_nodup _ Hwf l) as Hnd. rewrite Hcs in Hnd.
  assert (Hfacts : g <> t /\ (g ∉ xs) /\ (t ∉ xs) /\ (g ∉ ys)
                   /\ t ∈ children_of (document w) l).
  { rewrite Hcs. apply NoDup_app in Hnd as (_ & Hx & Hr).
    destruct up; simpl in *;
      apply NoDup_cons in Hr as [H1 Hr]; apply NoDup_cons in Hr as [H2 _];
      rewrite not_elem_of_cons in H1; destruct H1 as [H1 H1'];
      (repeat split;
       [ congruence
       | intros H; apply (Hx _ H); set_solver
       | intros H; apply (Hx _ H); set_solver
       | set_solver
       | set_solver ]). }
  destruct Hfacts as (Hgt & Hgx & Htx & Hgy & Htin).
  assert (Hp : parent_of (document w) t = Some l) by (apply (wf_children _ Hwf); exact Htin).
  assert (Hne : t <> g) by congruence.
  destruct (resorted_sibling_held cfg w g l a c t Hcb Hheld Hp Hne) as [Hsort Hheld2].
  set (it := if up then length xs else S (length xs)).
  assert (Hti : children_of (document w) l !! it = Some t).
  { rewrite Hcs. subst it. destruct up; simpl.
    - apply position_in_app.
    - change (xs ++ g :: t :: ys) with (xs ++ [g] ++ t :: ys).
      rewrite app_assoc. replace (S (length xs)) with (length (xs ++ [g])).
      + apply position_in_app.
      + rewrite length_app. simpl. lia. }
  assert (Hi : getSortableIndex (state w) (document w) (Some t) = Some it).
  { unfold getSortableIndex. rewrite (drag_list _ _ _ _ Hd).
    rewrite (scan_lookup t _ it (wf_nodup _ Hwf l) Hti). reflexivity. }
  destruct (resorted_at_target_index w g l a c t it Hheld Hp Hne Hi)
    as (_ & Hat & Hidx & Hrest).
  exists (mkWorld (state (resorted w g l a t l)) (document (resorted w g l a t l))
            (fired w ++ [(state (resorted w g l a t l), document (resorted w g l a t l))])).
  split; [exact Hsort|]. split; [exact Hheld2|]. cbn [state document fired].
  split; [|split; [exact Hidx|split; [reflexivity|]]].
  - assert (Hj : State.draggingIndex (state w)
                 = Some (if up then S (length xs) else length xs)).
    { destruct (Hsync g (drag_element _ _ _ _ Hd)) as (p & j & Hpg & Hj & Hgj).
      rewrite (drag_parent _ _ _ _ Hd) in Hpg. injection Hpg as <-.
      rewrite Hj. f_equal. apply (NoDup_lookup _ _ _ _ (wf_nodup _ Hwf l) Hgj).
      rewrite Hcs. destruct up; simpl.
      - change (xs ++ t :: g :: ys) with (xs ++ [t] ++ g :: ys).
        rewrite app_assoc. replace (S (length xs)) with (length (xs ++ [t])).
        + apply position_in_app.
        + rewrite length_app. simpl. lia.
      - apply position_in_app. }
    rewrite (children_of_resorted w g l a t l Hwf Hd Hp).
    rewrite (children_of_moved w g l a t l Hwf Hd Hp).
    rewrite decide_True by reflexivity.
    assert (Hup : Nat.ltb (length xs) (S (length xs)) = true)
      by (apply Nat.ltb_lt; lia).
    assert (Hdown : Nat.ltb (S (length xs)) (length xs) = false)
      by (apply Nat.ltb_ge; lia).
    unfold direction. rewrite Hi, Hj, Hcs. subst it. unfold js_lt.
    destruct up; [rewrite Hup | rewrite Hdown]; unfold inserted.
    + change (xs ++ [t; g] ++ ys) with (xs ++ t :: g :: ys).
      change (xs ++ [g; t] ++ ys) with (xs ++ g :: t :: ys).
      rewrite without_app, (without_absent g xs) by assumption.
      rewrite without_cons_other, without_cons_same, (without_absent g ys) by assumption.
      apply insert_before_app. exact Htx.
    + change (xs ++ [t; g] ++ ys) with (xs ++ t :: g :: ys).
      change (xs ++ [g; t] ++ ys) with (xs ++ g :: t :: ys).
      rewrite without_app, (without_absent g xs) by assumption.
      rewrite without_cons_same, without_cons_other, (without_absent g ys) by assumption.
      apply insert_after_app. exact Htx.
  - unfold resorted, moved. cbn [document].
    rewrite looks_assign_text, looks_place. apply looks_detach.
Qed.

Lemma arrow_key_is_arrow (up : bool) :
  is_arrow (if up then "ArrowUp" else "ArrowDown")%string = true.
Proof. destruct up; reflexivity. Qed.

Lemma sibling_for_neighbour d e g l t (xs ys : list node) (up : bool) :
  wf_dom d ->
  target e = g ->
  key e = (if up then "ArrowUp" else "ArrowDown")%string ->
  parent_of d g = Some l ->
  children_of d l = xs ++ (if up then [t; g] else [g; t]) ++ ys ->
  sibling_for d e = Some t.
Proof.
  intros Hwf Ht Hk Hp Hcs. unfold sibling_for. rewrite Hk, Ht.
  pose proof (wf_nodup _ Hwf l) as Hnd. rewrite Hcs in Hnd.
  apply NoDup_app in Hnd as (_ & Hx & Hr).
  destruct up; simpl in *.
  - pose proof (proj1 (NoDup_cons _ _) Hr) as [H1 _].
    rewrite not_elem_of_cons in H1.
    apply (previous_sibling_of d g l t xs ys Hp Hcs).
    + intros H. apply (Hx _ H). right. left.
    + destruct H1 as [H1 _]. congruence.
  - rewrite (next_sibling_of d g l xs (t :: ys) Hp Hcs); [reflexivity|].
    intros H. apply (Hx _ H). left.
Qed.

Lemma matches_looks e e' sel : looks e = looks e' -> matches e sel = matches e' sel.
Proof. unfold looks, matches. intros [= -> -> -> _]. reflexivity. Qed.

Lemma looks_focus d n m : looks (elem (focus d n) m) = looks (elem d m).
Proof. unfold focus. destruct (focusable (elem d n)); reflexivity. Qed.

(** An arrow key on the held element, next to a neighbour on that side. *)
Lemma keydown_arrow_swaps cfg e w g l a c t (xs ys : list node) (up : bool) :
  held w g l a c ->
  inert (Config.onSort cfg) ->
  target e = g ->
  key e = (if up then "ArrowUp" else "ArrowDown")%string ->
  matches (elem (document w) g) (attr_selector cfg) = true ->
  children_of (document w) l = xs ++ (if up then [t; g] else [g; t]) ++ ys ->
  let w1 := after (keydown cfg e) w in
  outcome (keydown cfg e) w = Returned tt
  /\ held w1 g l a c
  /\ children_of (document w1) l = xs ++ (if up then [g; t] else [t; g]) ++ ys
  /\ State.draggingIndex (state w1) = Some (if up then length xs else S (length xs))
  /\ length (fired w1) = S (length (fired w))
  /\ (focusable (elem (document w) g) = true -> activeElement (document w1) = Some g)
  /\ matches (elem (document w1) g) (attr_selector cfg) = true.
Proof.
  intros Hheld Hcb Ht Hk Hm Hcs w1.
  pose proof Hheld as (Hwf & Hd & _).
  assert (Hrun : keydown cfg e w = (sort cfg t ;; focus_dragging) w).
  { rewrite (keydown_arrow_run cfg e w g); [| rewrite Hk; apply arrow_key_is_arrow
                                           | apply Hd | rewrite Ht; exact Hm].
    rewrite (sibling_for_neighbour _ e g l t xs ys up Hwf Ht Hk (drag_parent _ _ _ _ Hd) Hcs).
    reflexivity. }
  destruct (sort_swaps_neighbours cfg w g l a c t xs ys up Hheld Hcb Hcs)
    as (w2 & Hsort & Hheld2 & Hcs2 & Hidx2 & Hf2 & Hlooks2).
  unfold mbind, M_bind, bind in Hrun. rewrite Hsort in Hrun.
  pose proof Hheld2 as (_ & Hd2 & _).
  rewrite (focus_dragging_run w2 g (drag_element _ _ _ _ Hd2)) in Hrun.
  subst w1. unfold after, outcome. rewrite Hrun. cbn [fst snd state document fired].
  split; [reflexivity|]. split.
  { apply (held_same_tree (state w2) (document w2) _ (fired w2) (fired w2));
      [apply same_tree_focus|]. destruct w2. exact Hheld2. }
  split; [destruct (same_tree_focus (document w2) g l) as [_ ->]; exact Hcs2|].
  split; [exact Hidx2|]. split; [rewrite Hf2, length_app; simpl; lia|]. split.
  - intros Hfoc. unfold focus.
    assert (Hf : focusable (elem (document w2) g) = true).
    { unfold looks in Hlooks2. injection Hlooks2 as _ _ _ ->. exact Hfoc. }
    rewrite Hf. reflexivity.
  - rewrite (matches_looks _ (elem (document w) g)); [exact Hm|].
    rewrite looks_focus. exact Hlooks2.
Qed.

(** X11. With the held element focused and a neighbour on the side of the
    arrow, ArrowUp or ArrowDown swaps the two, stores the new index, fires
    the callback once and keeps the focus on the held element. *)
Theorem arrow_swaps_neighbours (cfg : Config.t) (e : Event) (w : World)
    (g l a c t : node) (xs ys : list node) (up : bool) :
  held w g l a c ->
  inert (Config.onSort cfg) ->
  target e = g ->
  key e = (if up then "ArrowUp" else "ArrowDown")%string ->
  matches (elem (document w) g) (attr_selector cfg) = true ->
  children_of (document w) l = xs ++ (if up then [t; g] else [g; t]) ++ ys ->
  let w1 := after (keydown cfg e) w in
  outcome (keydown cfg e) w = Returned tt
  /\ children_of (document w1) l = xs ++ (if up then [g; t] else [t; g]) ++ ys
  /\ State.draggingIndex (state w1) = Some (if up then length xs else S (length xs))
  /\ in_sync (state w1) (document w1)
  /\ length (fired w1) = S (length (fired w))
  /\ (focusable (elem (document w) g) = true -> activeElement (document w1) = Some g).
Proof.
  intros Hheld Hcb Ht Hk Hm Hcs w1.
  destruct (keydown_arrow_swaps cfg e w g l a c t xs ys up Hheld Hcb Ht Hk Hm Hcs)
    as (H1 & H2 & H3 & H4 & H5 & H6 & _).
  split; [exact H1|]. split; [exact H3|]. split; [exact H4|].
  split; [apply H2|]. split; [exact H5 | exact H6].
Qed.

Lemma arrow_swaps_neighbours_witness :
  let w1 := after (keydown default_config (press "ArrowDown" 10)) held_world in
  outcome (keydown default_config (press "ArrowDown" 10)) held_world = Returned tt
  /\ children_of (document w1) 3 = [] ++ [11; 10] ++ [12; 13]
  /\ State.draggingIndex (state w1) = Some (S (length (@nil node)))
  /\ in_sync (state w1) (document w1)
  /\ length (fired w1) = S (length (fired held_world))
  /\ (focusable (elem (document held_world) 10) = true ->
      activeElement (document w1) = Some 10).
Proof.
  apply (arrow_swaps_neighbours default_config (press "ArrowDown" 10) held_world
           10 3 2 1 11 [] [12; 13] false).
  - exact held_world_held.
  - intros st d. reflexivity.
  - reflexivity.
  - reflexivity.
  - vm_compute. reflexivity.
  - vm_compute. reflexivity.
Defined.

(** X12. ArrowDown followed by ArrowUp on the held element (or the reverse)
    brings the list back to the order it had and the stored index back to
    its value; the callback has fired twice. *)
Theorem arrow_there_and_back (cfg : Config.t) (e1 e2 : Event) (w : World)
    (g l a c t : node) (xs ys : list node) (up : bool) :
  held w g l a c ->
  inert (Config.onSort cfg) ->
  target e1 = g -> target e2 = g ->
  key e1 = (if up then "ArrowUp" else "ArrowDown")%string ->
  key e2 = (if up then "ArrowDown" else "ArrowUp")%string ->
  matches (elem (document w) g) (attr_selector cfg) = true ->
  children_of (document w) l = xs ++ (if up then [t; g] else [g; t]) ++ ys ->
  let w1 := after (keydown cfg e1) w in
  let w2 := after (keydown cfg e2) w1 in
  outcome (keydown cfg e1) w = Returned tt
  /\ outcome (keydown cfg e2) w1 = Returned tt
  /\ children_of (document w2) l = children_of (document w) l
  /\ State.draggingIndex (state w2) = State.draggingIndex (state w)
  /\ length (fired w2) = S (S (length (fired w))).
Proof.
  intros Hheld Hcb Ht1 Ht2 Hk1 Hk2 Hm Hcs w1 w2.
  destruct (keydown_arrow_swaps cfg e1 w g l a c t xs ys up Hheld Hcb Ht1 Hk1 Hm Hcs)
    as (Ho1 & Hheld1 & Hcs1 & Hidx1 & Hf1 & _ & Hm1).
  fold w1 in Hheld1, Hcs1, Hidx1, Hf1, Hm1.
  assert (Hk2' : key e2 = (if negb up then "ArrowUp" else "ArrowDown")%string)
    by (rewrite Hk2; destruct up; reflexivity).
  assert (Hcs1' : children_of (document w1) l
                  = xs ++ (if negb up then [t; g] else [g; t]) ++ ys)
    by (rewrite Hcs1; destruct up; reflexivity).
  destruct (keydown_arrow_swaps cfg e2 w1 g l a c t xs ys (negb up)
              Hheld1 Hcb Ht2 Hk2' Hm1 Hcs1')
    as (Ho2 & _ & Hcs2 & Hidx2 & Hf2 & _).
  fold w2 in Hcs2, Hidx2, Hf2.
  split; [exact Ho1|]. split; [exact Ho2|]. split; [|split].
  - rewrite Hcs2, Hcs. destruct up; reflexivity.
  - rewrite Hidx2. destruct Hheld as (Hwf & Hd & _ & Hsync).
    destruct (Hsync g (drag_element _ _ _ _ Hd)) as (p & j & Hpg & Hj & Hgj).
    rewrite (drag_parent _ _ _ _ Hd) in Hpg. injection Hpg as <-.
    rewrite Hj. f_equal. symmetry.
    apply (NoDup_lookup _ _ _ _ (wf_nodup _ Hwf l) Hgj).
    rewrite Hcs. destruct up; simpl.
    + change (xs ++ t :: g :: ys) with (xs ++ [t] ++ g :: ys).
      rewrite app_assoc. replace (S (length xs)) with (length (xs ++ [t])).
      * apply position_in_app.
      * rewrite length_app. simpl. lia.
    + apply position_in_app.
  - rewrite Hf2, Hf1. reflexivity.
Qed.

Lemma arrow_there_and_back_witness :
  let w1 := after (keydown default_config (press "ArrowDown" 10)) held_world in
  let w2 := after (keydown default_config (press "ArrowUp" 10)) w1 in
  outcome (keydown default_config (press "ArrowDown" 10)) held_world = Returned tt
  /\ outcome (keydown default_config (press "ArrowUp" 10)) w1 = Returned tt
  /\ children_of (document w2) 3 = children_of (document held_world) 3
  /\ State.draggingIndex (state w2) = State.draggingIndex (state held_world)
  /\ length (fired w2) = S (S (length (fired held_world))).
Proof.
  apply (arrow_there_and_back default_config (press "ArrowDown" 10) (press "ArrowUp" 10)
           held_world 10 3 2 1 11 [] [12; 13] false).
  - exact held_world_held.
  - intros st d. reflexivity.
  - reflexivity.
  - reflexivity.
  - reflexivity.
  - reflexivity.
  - vm_compute. reflexivity.
  - vm_compute. reflexivity.
Defined.

Lemma sibling_for_edge d e g l (xs ys : list node) (up : bool) :
  wf_dom d ->
  target e = g ->
  key e = (if up then "ArrowUp" else "ArrowDown")%string ->
  parent_of d g = Some l ->
  children_of d l = (if up then g :: ys else xs ++ [g]) ->
  sibling_for d e = None.
Proof.
  intros Hwf Ht Hk Hp Hcs. unfold sibling_for. rewrite Hk, Ht.
  destruct up; simpl.
  - apply (previous_sibling_of_first d g l ys Hp Hcs).
  - rewrite (next_sibling_of d g l xs [] Hp Hcs); [reflexivity|].
    pose proof (wf_nodup _ Hwf l) as Hnd. rewrite Hcs in Hnd.
    apply NoDup_app in Hnd as (_ & Hx & _). intros H. apply (Hx _ H). left.
Qed.

(** X13. With the held element focused at the end of the list on the side
    of the arrow, the key moves nothing: state, tree and callback record
    stay as they are and the focus goes to the held element. *)
Theorem arrow_at_edge_moves_nothing (cfg : Config.t) (e : Event) (w : World)
    (g l : node) (xs ys : list node) (up : bool) :
  wf_dom (document w) ->
  State.draggingElement (state w) = Some g ->
  target e = g ->
  key e = (if up then "ArrowUp" else "ArrowDown")%string ->
  matches (elem (document w) g) (attr_selector cfg) = true ->
  parent_of (document w) g = Some l ->
  children_of (document w) l = (if up then g :: ys else xs ++ [g]) ->
  keydown cfg e w = (Returned tt, mkWorld (state w) (focus (document w) g) (fired w))
  /\ same_tree (document w) (focus (document w) g).
Proof.
  intros Hwf Hg Ht Hk Hm Hp Hcs. split; [|apply same_tree_focus].
  rewrite (keydown_arrow_run cfg e w g); [| rewrite Hk; apply arrow_key_is_arrow
                                         | exact Hg | rewrite Ht; exact Hm].
  rewrite (sibling_for_edge _ e g l xs ys up Hwf Ht Hk Hp Hcs).
  unfold mbind, M_bind, bind, ret. apply focus_dragging_run. exact Hg.
Qed.

Lemma arrow_at_edge_moves_nothing_witness :
  keydown default_config (press "ArrowUp" 10) held_world
  = (Returned tt,
     mkWorld (state held_world) (focus (document held_world) 10) (fired held_world))
  /\ same_tree (document held_world) (focus (document held_world) 10).
Proof.
  apply (arrow_at_edge_moves_nothing default_config (press "ArrowUp" 10) held_world
           10 3 [] [11; 12; 13] true).
  - exact held_world_wf.
  - vm_compute. reflexivity.
  - reflexivity.
  - reflexivity.
  - vm_compute. reflexivity.
  - vm_compute. reflexivity.
  - vm_compute. reflexivity.
Defined.

(** X14. With nothing held, an arrow key on a sortable that has a neighbour
    on that side moves the focus to the neighbour, when that neighbour can
    take it, and changes neither the state nor the tree nor the callback
    record. *)
Theorem arrows_idle_move_focus (cfg : Config.t) (e : Event) (w : World)
    (n l f : node) (xs ys : list node) (up : bool) :
  wf_dom (document w) ->
  State.draggingElement (state w) = None ->
  target e = n ->
  key e = (if up then "ArrowUp" else "ArrowDown")%string ->
  matches (elem (document w) n) (attr_selector cfg) = true ->
  parent_of (document w) n = Some l ->
  children_of (document w) l = xs ++ (if up then [f; n] else [n; f]) ++ ys ->
  keydown cfg e w = (Returned tt, mkWorld (state w) (focus (document w) f) (fired w))
  /\ same_tree (document w) (focus (document w) f)
  /\ (forall m, looks (elem (focus (document w) f) m) = looks (elem (document w) m))
  /\ activeElement (focus (document w) f)
     = (if focusable (elem (document w) f) then Some f else activeElement (document w)).
Proof.
  intros Hwf Hg Ht Hk Hm Hp Hcs.
  assert (Hrun := keydown_arrow_idle_run cfg e w).
  rewrite Hk, Ht in Hrun. specialize (Hrun (arrow_key_is_arrow up) Hg Hm).
  rewrite (sibling_for_neighbour _ e n l f xs ys up Hwf Ht Hk Hp Hcs) in Hrun.
  split; [exact Hrun|]. split; [apply same_tree_focus|].
  split; [intros m; apply looks_focus|].
  unfold focus. destruct (focusable (elem (document w) f)); reflexivity.
Qed.

Lemma arrows_idle_move_focus_witness :
  keydown default_config (press "ArrowDown" 11) (init demo_page)
  = (Returned tt, mkWorld init_state (focus demo_page 12) [])
  /\ same_tree demo_page (focus demo_page 12)
  /\ (forall m, looks (elem (focus demo_page 12) m) = looks (elem demo_page m))
  /\ activeElement (focus demo_page 12)
     = (if focusable (elem demo_page 12) then Some 12 else activeElement demo_page).
Proof.
  apply (arrows_idle_move_focus default_config (press "ArrowDown" 11) (init demo_page)
           11 3 12 [10] [13] false).
  - exact demo_page_wf.
  - reflexivity.
  - reflexivity.
  - reflexivity.
  - vm_compute. reflexivity.
  - vm_compute. reflexivity.
  - vm_compute. reflexivity.
Defined.

(** X15. With nothing held, an arrow key on the sortable at the end of the
    list on that side changes nothing at all. *)
Theorem arrows_idle_at_edge (cfg : Config.t) (e : Event) (w : World)
    (n l : node) (xs ys : list node) (up : bool) :
  wf_dom (document w) ->
  State.draggingElement (state w) = None ->
  target e = n ->
  key e = (if up then "ArrowUp" else "ArrowDown")%string ->
  matches (elem (document w) n) (attr_selector cfg) = true ->
  parent_of (document w) n = Some l ->
  children_of (document w) l = (if up then n :: ys else xs ++ [n]) ->
  keydown cfg e w = (Returned tt, w).
Proof.
  intros Hwf Hg Ht Hk Hm Hp Hcs.
  assert (Hrun := keydown_arrow_idle_run cfg e w).
  rewrite Hk, Ht in Hrun. specialize (Hrun (arrow_key_is_arrow up) Hg Hm).
  rewrite (sibling_for_edge _ e n l xs ys up Hwf Ht Hk Hp Hcs) in Hrun. exact Hrun.
Qed.

Lemma arrows_idle_at_edge_witness :
  keydown default_config (press "ArrowDown" 13) (init demo_page)
  = (Returned tt, init demo_page).
Proof.
  apply (arrows_idle_at_edge default_config (press "ArrowDown" 13) (init demo_page)
           13 3 [10; 11; 12] [] false).
  - exact demo_page_wf.
  - reflexivity.
  - reflexivity.
  - reflexivity.
  - vm_compute. reflexivity.
  - vm_compute. reflexivity.
  - vm_compute. reflexivity.
Defined.

(** ** Index lookup, continued *)

(** X16. When the children of the stored list are pairwise distinct, the
    index lookup inverts the lookup by position: it returns [i] for the
    [i]-th child. *)
Theorem getSortableIndex_inverts_lookup (st : State.t) (d : Dom) (l e : node) (i : nat) :
  State.sortableList st = Some l ->
  NoDup (children_of d l) ->
  children_of d l !! i = Some e ->
  getSortableIndex st d (Some e) = Some i.
Proof.
  intros Hl Hnd Hi. unfold getSortableIndex. rewrite Hl.
  rewrite (scan_lookup e _ i Hnd Hi). reflexivity.
Qed.

Lemma getSortableIndex_inverts_lookup_witness :
  getSortableIndex (state held_world) (document held_world) (Some 13) = Some 3.
Proof.
  apply (getSortableIndex_inverts_lookup (state held_world) (document held_world) 3 13 3).
  - vm_compute. reflexivity.
  - apply (wf_nodup _ held_world_wf).
  - vm_compute. reflexivity.
Defined.

(** X17. With a non-empty stored list the index lookup always returns a
    valid position of that list, whatever is queried (also [null], and also
    an element that is not in the list). *)
Theorem getSortableIndex_in_bounds (st : State.t) (d : Dom) (l : node) (el : option node) :
  State.sortableList st = Some l ->
  children_of d l <> [] ->
  exists i, getSortableIndex st d el = Some i /\ i < length (children_of d l).
Proof.
  intros Hl Hne. unfold getSortableIndex. rewrite Hl.
  destruct (scan el (children_of d l) 0) as [j|] eqn:Hs; simpl.
  - exists j. split; [reflexivity|]. destruct el as [e|].
    + destruct (scan_found _ _ _ _ Hs) as (_ & Hat & _). rewrite Nat.sub_0_r in Hat.
      apply lookup_lt_Some in Hat. exact Hat.
    + exfalso. assert (Hn : scan None (children_of d l) 0 = None)
        by (apply scan_none; intros; discriminate).
      congruence.
  - exists 0. split; [reflexivity|].
    destruct (children_of d l); [congruence | simpl; lia].
Qed.

Lemma getSortableIndex_in_bounds_witness :
  exists i, getSortableIndex (state held_world) (document held_world) (Some 99) = Some i
            /\ i < length (children_of (document held_world) 3).
Proof.
  apply (getSortableIndex_in_bounds (state held_world) (document held_world) 3 (Some 99)).
  - vm_compute. reflexivity.
  - vm_compute. discriminate.
Defined.

(** ** Classes *)







Lemma looks_set_class d n (h : list string -> list string) m :
  looks (elem (update d n (fun e => set_classList (h (classList e)) e)) m)
  = if decide (n = m) then reclass h (looks (elem d m)) else looks (elem d m).
Proof. rewrite elem_update. case_decide; subst; reflexivity. Qed.

Lemma looks_classed cfg d g c m :
  looks (elem (classed cfg d g c) m)
  = (if decide (c = m) then reclass (class_add (Config.draggingClass cfg)) else id)
      ((if decide (g = m) then reclass (class_add (Config.draggingElementClass cfg)) else id)
         (looks (elem d m))).
Proof.
  unfold classed. rewrite !looks_set_class. repeat case_decide; reflexivity.
Qed.




(** ** A whole drag with several drag-overs *)


(** ** The keyboard, continued *)

Lemma attr_selector_no_class cfg (cl : list string) :
  existsb (fun c => String.eqb (attr_selector cfg) ("." +:+ c)) cl = false.
Proof.
  induction cl as [|c r IH]; cbn [existsb]; [reflexivity|].
  rewrite IH, orb_false_r. unfold attr_selector. reflexivity.
Qed.

Lemma matches_attr_only cfg e e' :
  tagName e = tagName e' -> attributes e = attributes e' ->
  matches e (attr_selector cfg) = matches e' (attr_selector cfg).
Proof.
  intros Ht Ha. unfold matches. rewrite !attr_selector_no_class, Ht, Ha. reflexivity.
Qed.

Lemma matches_classed cfg d g c m :
  matches (elem (classed cfg d g c) m) (attr_selector cfg)
  = matches (elem d m) (attr_selector cfg).
Proof.
  pose proof (looks_classed cfg d g c m) as H. unfold looks, reclass, id in H.
  apply matches_attr_only; repeat case_decide; simpl in H; congruence.
Qed.

(** X20. The space bar on a sortable grabs it when nothing is held, exactly
    as a drag-start does; the element is then held, and a second press of the
    space bar on it drops it, exactly as a drag-end does. *)
Theorem space_grabs_then_drops (cfg : Config.t) (e : Event) (w : World) (l c : node) :
  key e = " "%string ->
  State.draggingElement (state w) = None ->
  matches (elem (document w) (target e)) (attr_selector cfg) = true ->
  parent_of (document w) (target e) = Some l ->
  closest (document w) (target e) (Config.sortableContainer cfg) = Some c ->
  let w1 := after (keydown cfg e) w in
  keydown cfg e w = start cfg e w
  /\ State.draggingElement (state w1) = Some (target e)
  /\ keydown cfg e w1 = end_ cfg e w1.
Proof.
  intros Hk Hidle Hm Hp Hc w1.
  pose proof (keydown_space_idle cfg e w Hk Hidle) as Hkey.
  pose proof (start_run cfg e w l c Hm Hp Hc) as Hrun. simpl in Hrun.
  assert (Hw1 : State.draggingElement (state w1) = Some (target e)
                /\ forall m, looks (elem (document w1) m)
                             = looks (elem (classed cfg (document w) (target e) c) m)).
  { subst w1. unfold after. rewrite Hkey, Hrun.
    destruct (querySelector (document w) c (Config.assistiveText cfg)) as [a|];
      cbn [snd state document]; (split; [reflexivity|]); intros m;
      [apply looks_assign_text | reflexivity]. }
  destruct Hw1 as [Hg Hl].
  split; [exact Hkey|]. split; [exact Hg|].
  apply (keydown_space_held cfg e w1 (target e) Hk Hg).
  rewrite (matches_looks _ _ _ (Hl (target e))), matches_classed. exact Hm.
Qed.

Lemma space_grabs_then_drops_witness :
  let e := press " " 10 in
  let w1 := after (keydown default_config e) (init demo_page) in
  keydown default_config e (init demo_page) = start default_config e (init demo_page)
  /\ State.draggingElement (state w1) = Some (target e)
  /\ keydown default_config e w1 = end_ default_config e w1.
Proof.
  apply (space_grabs_then_drops default_config (press " " 10) (init demo_page) 3 1).
  - reflexivity.
  - reflexivity.
  - vm_compute. reflexivity.
  - vm_compute. reflexivity.
  - vm_compute. reflexivity.
Defined.

(** X21. On a sortable, a key other than the space bar and the two arrows
    changes nothing, whether or not an element is held. *)
Theorem other_keys_ignored (cfg : Config.t) (e : Event) (w : World) :
  matches (elem (document w) (target e)) (attr_selector cfg) = true ->
  key e <> " "%string -> key e <> "ArrowUp"%string -> key e <> "ArrowDown"%string ->
  keydown cfg e w = (Returned tt, w).
Proof.
  intros Hm Hs Hu Hd. unfold keydown.
  unfold mbind at 1, M_bind at 1, bind at 1, get_document at 1.
  unfold mbind at 1, M_bind at 1, bind at 1, get_state at 1.
  apply String.eqb_neq in Hs, Hu, Hd.
  unfold is_arrow. rewrite Hm, Hs, Hu, Hd. simpl. rewrite andb_false_r.
  reflexivity.
Qed.

Lemma other_keys_ignored_witness :
  keydown default_config (press "Enter" 10) held_world = (Returned tt, held_world).
Proof.
  apply (other_keys_ignored default_config (press "Enter" 10) held_world);
    [vm_compute; reflexivity | discriminate..].
Defined.

(** ** The earlier versions, continued *)

Lemma first_sort_run w g l t p :
  State.draggingElement (state w) = Some g ->
  State.sortableList (state w) = Some l ->
  parent_of (document w) g = Some l ->
  parent_of (document w) t = Some p ->
  t <> g ->
  ~ inside (document w) g p ->
  Part001.sort t w
  = (Returned tt, mkWorld (set_draggingElement (Some g) (state w))
                    (place (detach (document w) g) g t p afterend) (fired w)).
Proof.
  intros Hg Hl Hgl Hp Hne Hin. unfold Part001.sort.
  unfold mbind at 1, M_bind at 1, bind at 1, get_state at 1.
  rewrite Hl, Hg.
  unfold mbind at 1, M_bind at 1, bind at 1, deref at 1, ret at 1.
  unfold mbind at 1, M_bind at 1, bind at 1.
  rewrite (removeChild_child l g w Hgl).
  unfold mbind at 1, M_bind at 1, bind at 1.
  rewrite (insertAdjacentElement_placed t _ g p); simpl;
    [ | rewrite parent_of_detach; rewrite decide_False by assumption; exact Hp
      | apply contains_detach_false; exact Hin
      | exact Hne ].
  reflexivity.
Qed.

Lemma second_sort_run w g l a t p :
  dragging w g l a ->
  parent_of (document w) t = Some p ->
  t <> g ->
  ~ inside (document w) g p ->
  Part002.sort t w
  = (Returned tt, mkWorld (state (resorted w g l a t p)) (moved w g t p) (fired w)).
Proof.
  intros [Hg Hl Ha Hgl Hleaf] Hp Hne Hin.
  unfold Part002.sort.
  unfold mbind at 1, M_bind at 1, bind at 1, get_state at 1.
  unfold mbind at 1, M_bind at 1, bind at 1, get_document at 1.
  rewrite Hl, Hg.
  unfold mbind at 1, M_bind at 1, bind at 1, deref at 1, ret at 1.
  unfold mbind at 1, M_bind at 1, bind at 1.
  rewrite (removeChild_child l g w Hgl).
  unfold mbind at 1, M_bind at 1, bind at 1.
  rewrite (insertAdjacentElement_placed t _ g p); simpl;
    [ | rewrite parent_of_detach; rewrite decide_False by assumption; exact Hp
      | apply contains_detach_false; exact Hin
      | exact Hne ].
  reflexivity.
Qed.

Lemma set_same_draggingElement st g :
  State.draggingElement st = Some g -> set_draggingElement (Some g) st = st.
Proof. destruct st. simpl. intros ->. reflexivity. Qed.

(** X22. In the first version a drag-over that passes the guards always
    puts the held element immediately after the target, wherever the element
    came from: the rest of the target's list keeps its order, and the held
    element is never the first item of that list afterwards. *)
Theorem first_version_puts_after (cfg : Config.t) (e : Event) (w : World)
    (g l c p : node) :
  wf_dom (document w) ->
  State.draggingElement (state w) = Some g ->
  State.sortableList (state w) = Some l ->
  State.sortableContainer (state w) = Some c ->
  parent_of (document w) g = Some l ->
  parent_of (document w) (target e) = Some p ->
  ~ inside (document w) g p ->
  target e <> g ->
  matches (elem (document w) (target e)) (attr_selector cfg) = true ->
  contains (document w) c (target e) = true ->
  let w1 := after (Part001.over cfg e) w in
  outcome (Part001.over cfg e) w = Returned tt
  /\ state w1 = state w
  /\ fired w1 = fired w
  /\ (exists xs ys : list node,
        without g (children_of (document w) p) = xs ++ target e :: ys
        /\ children_of (document w1) p = xs ++ target e :: g :: ys)
  /\ head (children_of (document w1) p) <> Some g.
Proof.
  intros Hwf Hg Hl Hc Hgl Hp Hin Hne Hm Hcont w1.
  assert (Hrun : Part001.over cfg e w
                 = (Returned tt, mkWorld (state w)
                      (place (detach (document w) g) g (target e) p afterend) (fired w))).
  { unfold Part001.over.
    unfold mbind at 1, M_bind at 1, bind at 1, get_state at 1.
    unfold mbind at 1, M_bind at 1, bind at 1, get_document at 1.
    rewrite Hg. rewrite decide_False by congruence.
    rewrite Hm, Hc.
    unfold mbind at 1, M_bind at 1, bind at 1, deref at 1. unfold ret. cbv beta iota.
    rewrite Hcont. cbv beta iota delta [negb].
    rewrite (first_sort_run w g l (target e) p Hg Hl Hgl Hp Hne Hin).
    rewrite set_same_draggingElement by exact Hg. reflexivity. }
  assert (Hch : children_of (document w1) p
                = insert_after (target e) g (without g (children_of (document w) p))).
  { subst w1. unfold after. rewrite Hrun. cbn [snd document].
    rewrite children_of_place, detach_twice. rewrite decide_True by reflexivity.
    rewrite (children_of_detach_wf _ g l p Hwf Hgl). reflexivity. }
  assert (Ht : target e ∈ without g (children_of (document w) p)).
  { apply in_without. split; [exact Hne|]. apply (wf_children _ Hwf). exact Hp. }
  destruct (insert_after_split (target e) g _ Ht) as (xs & ys & Hsplit & Hx & Hins).
  split; [unfold outcome; rewrite Hrun; reflexivity|].
  split; [subst w1; unfold after; rewrite Hrun; reflexivity|].
  split; [subst w1; unfold after; rewrite Hrun; reflexivity|].
  split.
  - exists xs, ys. split; [exact Hsplit|]. rewrite Hch. exact Hins.
  - rewrite Hch, Hins. destruct xs as [|x xs]; simpl.
    + congruence.
    + intros [= ->]. apply (not_in_without g (children_of (document w) p)).
      rewrite Hsplit. left.
Qed.

Lemma first_version_puts_after_witness :
  let w := after (Part001.start default_config (on 12)) (init demo_page) in
  let w1 := after (Part001.over default_config (on 11)) w in
  outcome (Part001.over default_config (on 11)) w = Returned tt
  /\ state w1 = state w
  /\ fired w1 = fired w
  /\ (exists xs ys : list node,
        without 12 (children_of (document w) 3) = xs ++ target (on 11) :: ys
        /\ children_of (document w1) 3 = xs ++ target (on 11) :: 12 :: ys)
  /\ head (children_of (document w1) 3) <> Some 12.
Proof.
  apply (first_version_puts_after default_config (on 11)
           (after (Part001.start default_config (on 12)) (init demo_page)) 12 3 1 3).
  - exact demo_page_wf.
  - reflexivity.
  - vm_compute. reflexivity.
  - vm_compute. reflexivity.
  - vm_compute. reflexivity.
  - vm_compute. reflexivity.
  - apply sibling_not_inside; [exact demo_page_wf | vm_compute; reflexivity].
  - discriminate.
  - vm_compute. reflexivity.
  - vm_compute. reflexivity.
Defined.

(** X23. On a held element whose page is well formed, a drag-over on a
    child of the stored list does in the second version what it does in the
    final one: both return, leave the same state and the same tree, and
    every element shows the same tag, attributes, classes and focusability.
    The second version records no callback invocation. *)
Theorem second_version_over_agrees (cfg : Config.t) (e : Event) (w : World)
    (g l a c : node) :
  wf_dom (document w) ->
  dragging w g l a ->
  State.sortableContainer (state w) = Some c ->
  inert (Config.onSort cfg) ->
  parent_of (document w) (target e) = Some l ->
  let w2 := after (Part002.over cfg e) w in
  let w3 := after (over cfg e) w in
  outcome (Part002.over cfg e) w = Returned tt
  /\ outcome (over cfg e) w = Returned tt
  /\ state w2 = state w3
  /\ same_tree (document w2) (document w3)
  /\ (forall n, looks (elem (document w2) n) = looks (elem (document w3) n))
  /\ fired w2 = fired w.
Proof.
  intros Hwf Hdrag Hc Hcb Hp w2 w3.
  pose proof (drag_element _ _ _ _ Hdrag) as Hg.
  assert (Hcases :
    (Part002.over cfg e w = (Returned tt, w) /\ over cfg e w = (Returned tt, w))
    \/ (target e <> g
        /\ Part002.over cfg e w = Part002.sort (target e) w
        /\ over cfg e w = sort cfg (target e) w)).
  { destruct (decide (g = target e)) as [Heq|Hne].
    { left. split; [|apply over_self; congruence].
      unfold Part002.over. unfold_monad. rewrite Hg.
      rewrite decide_True by assumption. reflexivity. }
    destruct (matches (elem (document w) (target e)) (attr_selector cfg)) eqn:Hm.
    2:{ left. split; [|apply over_non_sortable; exact Hm].
        unfold Part002.over. unfold_monad. rewrite Hg, Hm.
        rewrite decide_False by assumption. reflexivity. }
    destruct (contains (document w) c (target e)) eqn:Hin.
    2:{ left. split; [|apply (over_outside cfg e w c Hc Hin)].
        unfold Part002.over. unfold_monad. rewrite Hg, Hm, Hc.
        rewrite decide_False by assumption. simpl. rewrite Hin. reflexivity. }
    right. split; [congruence|]. split; [|apply (over_run cfg e w g c Hg Hne Hm Hc Hin)].
    unfold Part002.over. unfold_monad. rewrite Hg, Hm, Hc.
    rewrite decide_False by assumption. simpl. rewrite Hin. reflexivity. }
  destruct Hcases as [[H2 H3]|(Hne & H2 & H3)].
  - subst w2 w3. unfold outcome, after. rewrite H2, H3. simpl.
    split; [reflexivity|]. split; [reflexivity|]. split; [reflexivity|].
    split; [apply same_tree_refl|]. split; reflexivity.
  - assert (Hin : ~ inside (document w) g l)
      by (apply sibling_not_inside; [exact Hwf | exact (drag_parent _ _ _ _ Hdrag)]).
    rewrite (second_sort_run w g l a (target e) l Hdrag Hp Hne Hin) in H2.
    rewrite (sort_run cfg w g l a (target e) l Hdrag Hp Hne Hin), (fire_inert cfg _ Hcb) in H3.
    subst w2 w3. unfold outcome, after. rewrite H2, H3. cbn [fst snd state document fired].
    split; [reflexivity|]. split; [reflexivity|]. split; [reflexivity|].
    split; [|split; [|reflexivity]].
    + unfold resorted. cbn [document]. apply same_tree_assign_text.
      apply (moved_leaf w g l a (target e) l Hwf Hdrag Hp).
    + intros n. unfold resorted. cbn [document]. symmetry. apply looks_assign_text.
Qed.

Lemma second_version_over_agrees_witness :
  let w2 := after (Part002.over default_config (on 12)) held_world in
  let w3 := after (over default_config (on 12)) held_world in
  outcome (Part002.over default_config (on 12)) held_world = Returned tt
  /\ outcome (over default_config (on 12)) held_world = Returned tt
  /\ state w2 = state w3
  /\ same_tree (document w2) (document w3)
  /\ (forall n, looks (elem (document w2) n) = looks (elem (document w3) n))
  /\ fired w2 = fired held_world.
Proof.
  apply (second_version_over_agrees default_config (on 12) held_world 10 3 2 1).
  - exact held_world_wf.
  - exact held_world_dragging.
  - vm_compute. reflexivity.
  - intros st d. reflexivity.
  - vm_compute. reflexivity.
Defined.

(** X24. In both earlier versions a drag-start on a sortable inside a
    container stores the element, its parent list and the container and
    returns; the drag-end that follows returns, leaves the page and the
    record of callback invocations as they were before the drag, and leaves
    no element, list or container stored.  The second version also stores
    the index at the start and clears it at the end. *)
Theorem earlier_grab_and_drop (cfg : Config.t) (e1 e2 : Event) (w : World) (c : node) :
  matches (elem (document w) (target e1)) (attr_selector cfg) = true ->
  closest (document w) (target e1) (Config.sortableContainer cfg) = Some c ->
  let v1 := after (Part001.start cfg e1) w in
  let w1 := after (Part001.end_ e2) v1 in
  let v2 := after (Part002.start cfg e1) w in
  let w2 := after (Part002.end_ e2) v2 in
  (outcome (Part001.start cfg e1) w = Returned tt
   /\ State.draggingElement (state v1) = Some (target e1)
   /\ State.sortableList (state v1) = parent_of (document w) (target e1)
   /\ State.sortableContainer (state v1) = Some c
   /\ outcome (Part001.end_ e2) v1 = Returned tt
   /\ document w1 = document w /\ fired w1 = fired w
   /\ State.draggingElement (state w1) = None
   /\ State.sortableList (state w1) = None
   /\ State.sortableContainer (state w1) = None
   /\ State.draggingIndex (state w1) = State.draggingIndex (state w))
  /\ (outcome (Part002.start cfg e1) w = Returned tt
      /\ State.draggingElement (state v2) = Some (target e1)
      /\ State.draggingIndex (state v2)
         = getSortableIndex (state v2) (document w) (Some (target e1))
      /\ State.sortableList (state v2) = parent_of (document w) (target e1)
      /\ State.sortableContainer (state v2) = Some c
      /\ outcome (Part002.end_ e2) v2 = Returned tt
      /\ document w2 = document w /\ fired w2 = fired w
      /\ all_clear (state w2)).
Proof.
  intros Hm Hc.
  unfold outcome, after, Part001.start, Part001.end_, Part002.start, Part002.end_, all_clear.
  unfold_monad. rewrite Hm, Hc. simpl.
  repeat split; reflexivity.
Qed.

Lemma earlier_grab_and_drop_witness :
  let v1 := after (Part001.start default_config (on 11)) (init demo_page) in
  let w1 := after (Part001.end_ (on 11)) v1 in
  let v2 := after (Part002.start default_config (on 11)) (init demo_page) in
  let w2 := after (Part002.end_ (on 11)) v2 in
  (outcome (Part001.start default_config (on 11)) (init demo_page) = Returned tt
   /\ State.draggingElement (state v1) = Some 11
   /\ State.sortableList (state v1) = parent_of demo_page 11
   /\ State.sortableContainer (state v1) = Some 1
   /\ outcome (Part001.end_ (on 11)) v1 = Returned tt
   /\ document w1 = demo_page /\ fired w1 = []
   /\ State.draggingElement (state w1) = None
   /\ State.sortableList (state w1) = None
   /\ State.sortableContainer (state w1) = None
   /\ State.draggingIndex (state w1) = None)
  /\ (outcome (Part002.start default_config (on 11)) (init demo_page) = Returned tt
      /\ State.draggingElement (state v2) = Some 11
      /\ State.draggingIndex (state v2) = getSortableIndex (state v2) demo_page (Some 11)
      /\ State.sortableList (state v2) = parent_of demo_page 11
      /\ State.sortableContainer (state v2) = Some 1
      /\ outcome (Part002.end_ (on 11)) v2 = Returned tt
      /\ document w2 = demo_page /\ fired w2 = []
      /\ all_clear (state w2)).
Proof.
  apply (earlier_grab_and_drop default_config (on 11) (on 11) (init demo_page) 1);
    vm_compute; reflexivity.
Defined.

(** ** Guards, continued *)

(** X25. With an attribute name that gives a well-formed selector, a
    drag-start or a key press whose target is an element of the page that
    does not carry the attribute changes nothing, whatever the key and
    whether or not an element is held. *)
Theorem non_sortable_ignored (cfg : Config.t) (e : Event) (w : World) :
  well_formed_name (Config.attr cfg) = true ->
  element_target (document w) e ->
  matches (elem (document w) (target e)) (attr_selector cfg) = false ->
  start cfg e w = (Returned tt, w) /\ keydown cfg e w = (Returned tt, w).
Proof.
  intros _ _ H. split; [apply start_guarded | apply keydown_guarded]; exact H.
Qed.

Lemma non_sortable_ignored_witness :
  start default_config (press " " 3) held_world = (Returned tt, held_world)
  /\ keydown default_config (press " " 3) held_world = (Returned tt, held_world).
Proof.
  apply (non_sortable_ignored default_config (press " " 3) held_world).
  - vm_compute. reflexivity.
  - vm_compute. eauto.
  - vm_compute. reflexivity.
Defined.


